(** * aap_append: prefixing identifier fields of YAML documents

    A shallow embedding of [aap_prefix4.py], the resilient variant of the
    script; [recursive_prefix_lookup], [diff_dict] and
    [represent_multiline_str] are the same, line by line, in
    [aap_prefix3.py]:

    - [recursive_prefix_lookup], the Tree Rewriter, as a state-passing
      function over the shared lookup table;
    - [diff_dict], the Structural Differ;
    - [represent_multiline_str] and the representer tables of PyYAML;
    - [process_yaml_file] and the main loop over [file_key_map], on an
      explicit world of files, lookup table and printed lines.

    Document trees are the values [yaml.safe_load] builds from JSON-like
    documents: null, booleans, integers, floats, strings, lists and
    insertion-ordered dicts with string keys. *)

From Stdlib Require Import ZArith String Ascii List Bool Lia.
From Stdlib Require Import Floats.SpecFloat.
From Stdlib Require DecimalString.
From stdpp Require Import base option list gmap strings.

Local Open Scope string_scope.
Local Open Scope list_scope.

(** ** Document trees *)

Unset Elimination Schemes.

Inductive Tree : Type :=
| TNull
| TBool (b : bool)
| TInt (z : Z)
| TFloat (f : spec_float)
| TStr (s : string)
| TList (items : list Tree)
| TDict (items : list (string * Tree)).

Set Elimination Schemes.

(** Induction over trees, with the hypotheses for the elements of a list
    and for the values of a dict. *)
Definition Tree_ind (P : Tree -> Prop)
    (Hnull : P TNull)
    (Hbool : forall b, P (TBool b))
    (Hint : forall z, P (TInt z))
    (Hfloat : forall f, P (TFloat f))
    (Hstr : forall s, P (TStr s))
    (Hlist : forall items, Forall P items -> P (TList items))
    (Hdict : forall items, Forall (fun kv => P (snd kv)) items -> P (TDict items)) :
  forall t, P t :=
  fix go (t : Tree) : P t :=
    match t with
    | TNull => Hnull
    | TBool b => Hbool b
    | TInt z => Hint z
    | TFloat f => Hfloat f
    | TStr s => Hstr s
    | TList items =>
        Hlist items
          ((fix go_list (l : list Tree) : Forall P l :=
              match l with
              | [] => @List.Forall_nil _ P
              | x :: r => @List.Forall_cons _ P x r (go x) (go_list r)
              end) items)
    | TDict items =>
        Hdict items
          ((fix go_dict (l : list (string * Tree)) : Forall (fun kv => P (snd kv)) l :=
              match l with
              | [] => @List.Forall_nil _ _
              | kv :: r => @List.Forall_cons _ _ kv r (go (snd kv)) (go_dict r)
              end) items)
    end.

(** [isinstance(value, str)], giving the string. *)
Definition is_str (t : Tree) : option string :=
  match t with
  | TStr s => Some s
  | _ => None
  end.

(** ** Python dicts as insertion-ordered association lists *)

Module PyDict.

Section Ops.
Context {V : Type}.

(** [d[k]] / [k in d]: the value stored under [k], if any. *)
Fixpoint get (k : string) (d : list (string * V)) : option V :=
  match d with
  | [] => None
  | (k', v) :: rest => if String.eqb k k' then Some v else get k rest
  end.

(** [d[k] = v]: an existing key keeps its position and takes the new
    value, a new key goes to the end. *)
Fixpoint set (k : string) (v : V) (d : list (string * V)) : list (string * V) :=
  match d with
  | [] => [(k, v)]
  | (k', v') :: rest =>
      if String.eqb k k' then (k, v) :: rest else (k', v') :: set k v rest
  end.

Definition keys (d : list (string * V)) : list string := map fst d.

End Ops.

End PyDict.

(** A tree is well formed when no dict in it has a key twice, as in every
    Python dict. *)
Fixpoint wf (t : Tree) : Prop :=
  match t with
  | TList items => (fix all (l : list Tree) : Prop :=
                      match l with
                      | [] => True
                      | x :: r => wf x /\ all r
                      end) items
  | TDict items => NoDup (map fst items) /\
                   (fix all (l : list (string * Tree)) : Prop :=
                      match l with
                      | [] => True
                      | kv :: r => wf (snd kv) /\ all r
                      end) items
  | _ => True
  end.

(** The same, as a check that computes. *)
Fixpoint wfb (t : Tree) : bool :=
  match t with
  | TList items => forallb wfb items
  | TDict items =>
      bool_decide (NoDup (map fst items)) && forallb (fun kv => wfb (snd kv)) items
  | _ => true
  end.

(** ** The Tree Rewriter *)

(** [value.startswith(prefix)] *)
Definition startswith (value prefix : string) : bool := String.prefix prefix value.

(** [key in keys_to_prefix], on the list the caller passes. *)
Definition key_in (key : string) (keys_to_prefix : list string) : bool :=
  existsb (String.eqb key) keys_to_prefix.

(** The lookup table: a dict from old value to new value, in insertion
    order (the order in which the run prints it). *)
Abbreviation Lookup := (list (string * string)).

(** The two loops of the rewriter, over the recursive call [rec] they make
    on the values they visit. *)
Section RewriterLoops.
Variable rec : Tree -> Lookup -> Tree * Lookup.
Variable prefix : string.
Variable keys_to_prefix : list string.

(** [for key, value in data.items(): ...] filling [new_data]. *)
Fixpoint rewrite_items (items new_data : list (string * Tree)) (lookup : Lookup)
    {struct items} : list (string * Tree) * Lookup :=
  match items with
  | [] => (new_data, lookup)
  | (key, value) :: rest =>
      match (if key_in key keys_to_prefix then is_str value else None) with
      | Some s =>
          if negb (startswith s prefix) then
            let new_value := prefix +:+ s in
            rewrite_items rest (PyDict.set key (TStr new_value) new_data)
                          (PyDict.set s new_value lookup)
          else
            rewrite_items rest (PyDict.set key value new_data) lookup
      | None =>
          let '(v, lookup') := rec value lookup in
          rewrite_items rest (PyDict.set key v new_data) lookup'
      end
  end.

(** [[rec(item) for item in data]], left to right. *)
Fixpoint rewrite_list (items : list Tree) (lookup : Lookup) {struct items}
    : list Tree * Lookup :=
  match items with
  | [] => ([], lookup)
  | item :: rest =>
      let '(v, lookup1) := rec item lookup in
      let '(vs, lookup2) := rewrite_list rest lookup1 in
      (v :: vs, lookup2)
  end.
End RewriterLoops.

Fixpoint recursive_prefix_lookup (data : Tree) (prefix : string)
    (keys_to_prefix : list string) (lookup : Lookup) {struct data} : Tree * Lookup :=
  match data with
  | TDict items =>
      let '(new_data, lookup') :=
        rewrite_items
          (fun value lk => recursive_prefix_lookup value prefix keys_to_prefix lk)
          prefix keys_to_prefix items [] lookup in
      (TDict new_data, lookup')
  | TList items =>
      let '(new_items, lookup') :=
        rewrite_list
          (fun item lk => recursive_prefix_lookup item prefix keys_to_prefix lk)
          items lookup in
      (TList new_items, lookup')
  | _ => (data, lookup)
  end.

(** ** Paths into a tree *)

Inductive Step : Type :=
| Key (k : string)
| Idx (i : nat).

(** The node reached from [t] along [path], if there is one. *)
Fixpoint tree_get (path : list Step) (t : Tree) : option Tree :=
  match path with
  | [] => Some t
  | Key k :: rest =>
      match t with
      | TDict items =>
          match PyDict.get k items with
          | Some v => tree_get rest v
          | None => None
          end
      | _ => None
      end
  | Idx i :: rest =>
      match t with
      | TList items =>
          match items !! i with
          | Some v => tree_get rest v
          | None => None
          end
      | _ => None
      end
  end.

(** ** What one rewrite returns and what it writes

    [prefixed] is the tree a rewrite returns on a well-formed tree and
    [writes] the old values it stores in the lookup table, in order. Both
    are proof devices: [rpl_tree] and [rpl_lookup] relate them to
    [recursive_prefix_lookup]. *)

Definition eligible (prefix : string) (keys_to_prefix : list string)
    (key : string) (value : Tree) : option string :=
  if key_in key keys_to_prefix then is_str value else None.

Fixpoint prefixed (prefix : string) (keys_to_prefix : list string) (t : Tree) : Tree :=
  match t with
  | TDict items =>
      TDict (map (fun kv =>
                    (fst kv,
                     match eligible prefix keys_to_prefix (fst kv) (snd kv) with
                     | Some s => if startswith s prefix then snd kv
                                 else TStr (prefix +:+ s)
                     | None => prefixed prefix keys_to_prefix (snd kv)
                     end)) items)
  | TList items => TList (map (prefixed prefix keys_to_prefix) items)
  | _ => t
  end.

Fixpoint writes (prefix : string) (keys_to_prefix : list string) (t : Tree) : list string :=
  match t with
  | TDict items =>
      flat_map (fun kv =>
                  match eligible prefix keys_to_prefix (fst kv) (snd kv) with
                  | Some s => if startswith s prefix then [] else [s]
                  | None => writes prefix keys_to_prefix (snd kv)
                  end) items
  | TList items => flat_map (writes prefix keys_to_prefix) items
  | _ => []
  end.

(** [lookup[s] = prefix + s] for each [s] of [olds], left to right. *)
Definition record_all (prefix : string) (olds : list string) (lookup : Lookup) : Lookup :=
  fold_left (fun lk s => PyDict.set s (prefix +:+ s) lk) olds lookup.

(** The rewrites of one run: the documents in order, each with its keys,
    on the shared table. *)
Definition rewrite_all (prefix : string) (docs : list (Tree * list string))
    (lookup : Lookup) : Lookup :=
  fold_left (fun lk doc => snd (recursive_prefix_lookup (fst doc) prefix (snd doc) lk))
            docs lookup.

(** The invariant of the lookup table under the prefix of the run: an
    entry maps an old value that does not start with the prefix to the
    prefix followed by that value. *)
Definition lookup_inv (prefix : string) (lookup : Lookup) : Prop :=
  forall old new : string,
    PyDict.get old lookup = Some new ->
    new = prefix +:+ old /\ startswith old prefix = false.

(** ** Shape of a tree *)

Definition is_leaf (t : Tree) : Prop :=
  match t with
  | TList _ | TDict _ => False
  | _ => True
  end.

(** [same_shape keys t t']: [t'] has the mappings of [t] with the same keys
    in the same order, the sequences of [t] with the same lengths and the
    leaves of [t], but for strings under a key of [keys], which may be
    other strings. *)
Unset Elimination Schemes.

Inductive same_shape (keys : list string) : Tree -> Tree -> Prop :=
| shape_leaf t :
    is_leaf t -> same_shape keys t t
| shape_list l l' :
    Forall2 (same_shape keys) l l' -> same_shape keys (TList l) (TList l')
| shape_dict m m' :
    Forall2 (fun kv kv' =>
               fst kv = fst kv' /\
               (same_shape keys (snd kv) (snd kv') \/
                (key_in (fst kv) keys = true /\
                 exists s s', snd kv = TStr s /\ snd kv' = TStr s'))) m m' ->
    same_shape keys (TDict m) (TDict m').

Set Elimination Schemes.

(** ** Python equality of scalars *)

(** Numbers as [==] sees them: [bool] is a subclass of [int], and an [int]
    is compared with a [float] by exact value. *)
Inductive Num : Type :=
| NInt (z : Z)
| NFloat (f : spec_float).

Definition to_num (t : Tree) : option Num :=
  match t with
  | TBool b => Some (NInt (if b then 1 else 0)%Z)
  | TInt z => Some (NInt z)
  | TFloat f => Some (NFloat f)
  | _ => None
  end.

(** The float [f] has exactly the integer value [z]. *)
Definition float_eq_Z (f : spec_float) (z : Z) : bool :=
  match f with
  | S754_zero _ => (z =? 0)%Z
  | S754_finite sign m e =>
      let v := (if sign then Z.neg m else Z.pos m) in
      if (0 <=? e)%Z then (z =? v * 2 ^ e)%Z else (v =? z * 2 ^ (- e))%Z
  | S754_infinity _ | S754_nan => false
  end.

Definition num_eq (a b : Num) : bool :=
  match a, b with
  | NInt x, NInt y => (x =? y)%Z
  | NFloat f, NFloat g => SFeqb f g
  | NInt x, NFloat g => float_eq_Z g x
  | NFloat f, NInt y => float_eq_Z f y
  end.

(** [d1 == d2] where [diff_dict] evaluates it: never on two dicts nor on two
    lists. A dict or a list equals no value of another kind. *)
Definition py_eq (d1 d2 : Tree) : bool :=
  match d1, d2 with
  | TNull, TNull => true
  | TStr s1, TStr s2 => String.eqb s1 s2
  | _, _ =>
      match to_num d1, to_num d2 with
      | Some a, Some b => num_eq a b
      | _, _ => false
      end
  end.

(** ** The Structural Differ *)

(** A change record [(path, old, new)]; Python's [None] is [TNull], both
    for a null value and for "absent on this side". *)
Definition Change : Type := string * Tree * Tree.

(** [str(i)] of a non-negative [int]. *)
Definition str_of_nat (i : nat) : string :=
  DecimalString.NilZero.string_of_uint (Nat.to_uint i).

(** [f"{path}[{i}]"] *)
Definition index_path (path : string) (i : nat) : string :=
  path +:+ "[" +:+ str_of_nat i +:+ "]".

(** [f"{path}.{k}" if path else k] *)
Definition key_path (path k : string) : string :=
  match path with
  | EmptyString => k
  | _ => path +:+ "." +:+ k
  end.

Section Differ.
(** The order in which Python iterates over the set [d1.keys() | d2.keys()];
    the language leaves it open. *)
Variable set_iter : gset string -> list string.

(** The loops of [diff_dict], over the recursive call [rec]. *)
Section DifferLoops.
Variable rec : Tree -> Tree -> string -> list Change.
Variable path : string.

(** [for i, (v1, v2) in enumerate(zip(d1, d2)): changes.extend(rec(v1, v2, p))],
    counting from [i]. *)
Fixpoint diff_zip (d1 d2 : list Tree) (i : nat) {struct d1} : list Change :=
  match d1, d2 with
  | v1 :: r1, v2 :: r2 => rec v1 v2 (index_path path i) ++ diff_zip r1 r2 (S i)
  | _, _ => []
  end.
End DifferLoops.

(** [for i in range(lo, hi): changes.append(mk(i, d[i]))] *)
Definition diff_range (d : list Tree) (lo hi : nat) (mk : nat -> Tree -> Change)
    : list Change :=
  flat_map (fun i => match d !! i with
                     | Some v => [mk i v]
                     | None => []
                     end) (seq lo (hi - lo)).

(** The body of the loop over the keys, for the key [k]. [in1] holds
    [diff_dict d1[k]] for the keys of [d1]. *)
Definition diff_key (in1 : list (string * (Tree -> string -> list Change)))
    (m1 m2 : list (string * Tree)) (path k : string) : list Change :=
  let p := key_path path k in
  match PyDict.get k in1, PyDict.get k m2 with
  | Some f, Some v2 => f v2 p
  | Some _, None =>
      match PyDict.get k m1 with
      | Some v1 => [(p, v1, TNull)]
      | None => []
      end
  | None, Some v2 => [(p, TNull, v2)]
  | None, None => []
  end.

Fixpoint diff_dict (d1 d2 : Tree) (path : string) {struct d1} : list Change :=
  match d1, d2 with
  | TDict m1, TDict m2 =>
      let in1 := map (fun kv => (fst kv, diff_dict (snd kv))) m1 in
      flat_map (diff_key in1 m1 m2 path)
               (set_iter (list_to_set (PyDict.keys m1) ∪ list_to_set (PyDict.keys m2)))
  | TList l1, TList l2 =>
      diff_zip diff_dict path l1 l2 0
      ++ diff_range l2 (length l1) (length l2)
           (fun i v => (index_path path i, TNull, v))
      ++ diff_range l1 (length l2) (length l1)
           (fun i v => (index_path path i, v, TNull))
  | _, _ =>
      if negb (py_eq d1 d2) then [(path, d1, d2)] else []
  end.

End Differ.

(** A change of the differ between a tree and its rewrite: the old value
    is a string the rewrite has written, and the new value is that string
    with the prefix; or the old value is no string. *)
Definition change_of_write (prefix : string) (keys : list string) (t : Tree)
    (c : Change) : Prop :=
  (exists s, snd (fst c) = TStr s /\ snd c = TStr (prefix +:+ s)
             /\ s ∈ writes prefix keys t)
  \/ is_str (snd (fst c)) = None.

(** ** The serialization policy and PyYAML's representers *)

(** A scalar node as [represent_scalar(tag, value, style)] builds it;
    [style = None] asks for the default scalar style. *)
Record ScalarNode : Type := {
  node_tag : string;
  node_value : string;
  node_style : option string;
}.

Definition represent_scalar (tag value : string) (style : option string) : ScalarNode :=
  {| node_tag := tag; node_value := value; node_style := style |}.

(** [c in data] for a one-character string [c]. *)
Fixpoint char_in (c : ascii) (data : string) : bool :=
  match data with
  | EmptyString => false
  | String a rest => Ascii.eqb c a || char_in c rest
  end.

(** The characters of the list the source tests: double quote, single
    quote, backslash, less-than and greater-than. *)
Definition special_chars : list ascii :=
  ["034"%char; "039"%char; "092"%char; "<"%char; ">"%char].

Definition represent_multiline_str (data : string) : ScalarNode :=
  if char_in "010"%char data || existsb (fun c => char_in c data) special_chars then
    represent_scalar "tag:yaml.org,2002:str" data (Some "|")
  else
    represent_scalar "tag:yaml.org,2002:str" data None.

(** PyYAML keeps one table of representers per dumper class. The source
    uses two entry points of the library:
    - [yaml.add_representer(data_type, representer, Dumper=yaml.Dumper)]
      registers on the class given as third argument;
    - [yaml.safe_dump(data, stream, ...)] dumps with [yaml.SafeDumper].
    Only the representer of [str] is tracked; [None] stands for the one the
    class is born with. *)
Inductive DumperClass : Type :=
| Dumper
| SafeDumper.

Record Yaml : Type := {
  on_Dumper : option (string -> ScalarNode);
  on_SafeDumper : option (string -> ScalarNode);
}.

(** The tables of a fresh interpreter. *)
Definition yaml_initial : Yaml := {| on_Dumper := None; on_SafeDumper := None |}.

Definition add_representer_str (representer : string -> ScalarNode)
    (cls : DumperClass) (y : Yaml) : Yaml :=
  match cls with
  | Dumper => {| on_Dumper := Some representer; on_SafeDumper := on_SafeDumper y |}
  | SafeDumper => {| on_Dumper := on_Dumper y; on_SafeDumper := Some representer |}
  end.

(** [SafeRepresenter.represent_str], the representer of [str] both classes
    are born with. *)
Definition builtin_represent_str (data : string) : ScalarNode :=
  represent_scalar "tag:yaml.org,2002:str" data None.

(** The representer of [str] a dump with the class [cls] uses. *)
Definition str_representer (cls : DumperClass) (y : Yaml) : string -> ScalarNode :=
  match (match cls with Dumper => on_Dumper y | SafeDumper => on_SafeDumper y end) with
  | Some representer => representer
  | None => builtin_represent_str
  end.

(** ** The document pipeline *)

(** An exception, as the text [f"{e}"] prints for it. *)
Definition Exception : Type := string.

(** What the run can see and change: the files of the working directory,
    PyYAML's representer tables, the shared lookup table and the lines
    printed so far. *)
Record World : Type := {
  files : gmap string string;
  yaml : Yaml;
  lookup_table : Lookup;
  stdout : list string;
}.

Definition print (line : string) (w : World) : World :=
  {| files := files w; yaml := yaml w; lookup_table := lookup_table w;
     stdout := stdout w ++ [line] |}.

(** [lookup_table = {}] *)
Definition fresh_table (w : World) : World :=
  {| files := files w; yaml := yaml w; lookup_table := []; stdout := stdout w |}.

Definition print_all (lines : list string) (w : World) : World :=
  fold_left (fun w line => print line w) lines w.

(** [os.path.basename]: what follows the last slash. *)
Fixpoint basename_from (cur s : string) : string :=
  match s with
  | EmptyString => cur
  | String c rest =>
      if Ascii.eqb c "/"%char then basename_from rest rest else basename_from cur rest
  end.

Definition basename (filepath : string) : string := basename_from filepath filepath.

Definition newline : string := String "010"%char EmptyString.

Definition file_key_map : list (string * list string) :=
  [ ("orgs.yaml", ["name"]);
    ("projects.yaml", ["name"; "organization"]);
    ("teams.yaml", ["name"; "organization"]);
    ("schedules.yaml", ["name"; "unified_job_template"]);
    ("inventories.yaml", ["name"; "organization"]);
    ("job_templates.yaml",
       ["name"; "organization"; "project"; "inventory"; "credentials"]);
    ("notification_templates.yaml", ["name"; "organization"]);
    ("workflow_job_templates.yaml",
       ["name"; "organization"; "workflow_job_template"; "unified_job_template"]) ].

Section Pipeline.
(** The collaborators outside the repository, and the text repair
    [fix_block_scalars] (two regular-expression substitutions on the raw
    text, of which nothing below depends): *)
Variable set_iter : gset string -> list string.
Variable fix_block_scalars : string -> string.
(** [yaml.safe_load]: the parsed tree, or the exception raised. *)
Variable safe_load : string -> Exception + Tree.
(** [yaml.safe_dump(data, f, sort_keys=False, allow_unicode=True)], given
    the representer of [str] of its dumper class: the text that reached
    the stream, and the exception if one was raised. *)
Variable safe_dump : (string -> ScalarNode) -> Tree -> string * option Exception.
(** [str(value)], as the f-strings of the report format a value. *)
Variable py_str : Tree -> string.

Definition report_line (c : Change) : string :=
  let '(path, old, new) := c in
  "  " +:+ path +:+ ": " +:+ py_str old +:+ " -> " +:+ py_str new.

(** One call of [process_yaml_file]: the world it leaves, and the
    exception that ended it, if any. *)
Definition process_yaml_file (filepath prefix : string) (keys_to_prefix : list string)
    (w : World) : World * option Exception :=
  match files w !! filepath with
  | None =>
      (w, Some ("[Errno 2] No such file or directory: '" +:+ filepath +:+ "'"))
  | Some raw_content =>
      let raw_content := fix_block_scalars raw_content in
      match safe_load raw_content with
      | inl e => (w, Some e)
      | inr original_data =>
          let '(updated_data, lookup) :=
            recursive_prefix_lookup original_data prefix keys_to_prefix
                                    (lookup_table w) in
          let diffs := diff_dict set_iter original_data updated_data "" in
          let yaml' := add_representer_str represent_multiline_str Dumper (yaml w) in
          let '(text, raised) :=
            safe_dump (str_representer SafeDumper yaml') updated_data in
          let w1 := {| files := <[filepath := text]> (files w); yaml := yaml';
                       lookup_table := lookup; stdout := stdout w |} in
          match raised with
          | Some e => (w1, Some e)
          | None =>
              let w2 := print ("✅ Processed: " +:+ basename filepath) w1 in
              match diffs with
              | [] => (print "No changes detected." w2, None)
              | _ => (print_all (map report_line diffs) (print "Changes made:" w2),
                      None)
              end
          end
      end
  end.

Definition failure_line (filename : string) (e : Exception) : string :=
  "❌ Failed to process " +:+ filename +:+ ": " +:+ e.

(** The body of the loop of the resilient variant, for one entry of
    [file_key_map]. *)
Definition run_file (prefix : string) (entry : string * list string) (w : World)
    : World :=
  let '(filename, keys) := entry in
  match files w !! filename with
  | Some _ =>
      match process_yaml_file filename prefix keys w with
      | (w', None) => w'
      | (w', Some e) => print (failure_line filename e) w'
      end
  | None => print ("⚠️ Skipping " +:+ filename +:+ " (not found)") w
  end.

Definition run_files (prefix : string) (entries : list (string * list string))
    (w : World) : World :=
  fold_left (fun w entry => run_file prefix entry w) entries w.

(** The main block, from the prefix it read (already stripped): it starts
    from an empty lookup table and prints the table at the end. *)
Definition main (prefix : string) (w : World) : World :=
  let w1 := run_files prefix file_key_map (fresh_table w) in
  print_all (map (fun kv => "  " +:+ fst kv +:+ " -> " +:+ snd kv) (lookup_table w1))
            (print (newline +:+ "Lookup table (old -> new values):") w1).

(** The table the run would hold if it kept the entries of exactly the
    files that were found and parsed, read from the files [fs]. *)
Fixpoint lookup_of_parsed (prefix : string) (entries : list (string * list string))
    (fs : gmap string string) (lookup : Lookup) : Lookup :=
  match entries with
  | [] => lookup
  | (filename, keys) :: rest =>
      match fs !! filename with
      | Some raw =>
          match safe_load (fix_block_scalars raw) with
          | inr t =>
              lookup_of_parsed prefix rest fs
                (snd (recursive_prefix_lookup t prefix keys lookup))
          | inl _ => lookup_of_parsed prefix rest fs lookup
          end
      | None => lookup_of_parsed prefix rest fs lookup
      end
  end.

(** The table the run would hold if it kept the entries of exactly the
    files whose processing succeeded. *)
Fixpoint lookup_of_processed (y : Yaml) (prefix : string)
    (entries : list (string * list string))
    (fs : gmap string string) (lookup : Lookup) : Lookup :=
  match entries with
  | [] => lookup
  | (filename, keys) :: rest =>
      match fs !! filename with
      | Some raw =>
          match safe_load (fix_block_scalars raw) with
          | inr t =>
              let '(updated, lookup') :=
                recursive_prefix_lookup t prefix keys lookup in
              match snd (safe_dump (str_representer SafeDumper y) updated) with
              | None => lookup_of_processed y prefix rest fs lookup'
              | Some _ => lookup_of_processed y prefix rest fs lookup
              end
          | inl _ => lookup_of_processed y prefix rest fs lookup
          end
      | None => lookup_of_processed y prefix rest fs lookup
      end
  end.

End Pipeline.

(** ** Further definitions: the rewriter seen from a path *)

(** The node at the end of [path] is one the rewriter replaces: a string
    that does not start with the prefix, directly under a key of
    [keys_to_prefix]. *)
Definition is_target (prefix : string) (keys_to_prefix : list string)
    (path : list Step) (node : Tree) : bool :=
  match last path, node with
  | Some (Key k), TStr s => key_in k keys_to_prefix && negb (startswith s prefix)
  | _, _ => false
  end.

(** What the rewrite of a tree holds where the tree holds [node]: under a
    key, what the loop over the items stores for the value; elsewhere, the
    rewrite of the node. *)
Definition rewrite_node (prefix : string) (keys_to_prefix : list string)
    (path : list Step) (node : Tree) : Tree :=
  match last path with
  | Some (Key k) =>
      match eligible prefix keys_to_prefix k node with
      | Some s => if startswith s prefix then node else TStr (prefix +:+ s)
      | None => prefixed prefix keys_to_prefix node
      end
  | _ => prefixed prefix keys_to_prefix node
  end.

(** ** Further definitions: the differ *)

(** The tree holds a float that is not a number. *)
Fixpoint has_nan (t : Tree) : bool :=
  match t with
  | TFloat S754_nan => true
  | TList items => existsb has_nan items
  | TDict items => existsb (fun kv => has_nan (snd kv)) items
  | _ => false
  end.

(** The path string [diff_dict] builds for the node reached by [steps] from
    a node whose path string is [path]. *)
Fixpoint path_from (path : string) (steps : list Step) : string :=
  match steps with
  | [] => path
  | Key k :: rest => path_from (key_path path k) rest
  | Idx i :: rest => path_from (index_path path i) rest
  end.

(** [c] is the change of a target of [t]: of a string without the prefix
    directly under a key of [keys], reached by some steps from the node
    whose path string is [path]. *)
Definition reported (prefix : string) (keys : list string) (t : Tree)
    (path : string) (c : Change) : Prop :=
  exists steps s,
    c = (path_from path steps, TStr s, TStr (prefix +:+ s))
    /\ tree_get steps t = Some (TStr s)
    /\ is_target prefix keys steps (TStr s) = true.

(** ** Further definitions: [fix_block_scalars] *)

Module BlockScalars.

(** A text is a Python [str]: the list of its code points. *)
Abbreviation Text := (list N).

Definition bar : N := 124.
Definition gt : N := 62.
Definition nl : N := 10.
Definition sp : N := 32.

(** The class [\s] of [re] on a [str] pattern: the code points Python takes
    for whitespace (U+0009 to U+000D, U+001C to U+0020, U+0085, U+00A0,
    U+1680, U+2000 to U+200A, U+2028, U+2029, U+202F, U+205F, U+3000). *)
Definition is_space (c : N) : bool :=
  (((9 <=? c) && (c <=? 13)) || ((28 <=? c) && (c <=? 32))
   || (c =? 133) || (c =? 160) || (c =? 5760)
   || ((8192 <=? c) && (c <=? 8202))
   || (c =? 8232) || (c =? 8233) || (c =? 8239) || (c =? 8287) || (c =? 12288))%N.

(** The class [[^\n\s]]. *)
Definition is_group2 (c : N) : bool := negb (c =? nl)%N && negb (is_space c).

(** [pattern.sub(repl, text)] for the pattern of two groups, the literal
    character [mark] followed by [\s*], then [[^\n\s]], and [repl] giving
    group 1, a newline, two spaces and group 2. The text is read once, left
    to right; [pending] says that a mark was read at which a match is being tried and that
    only whitespace followed it so far. The greedy [\s*] takes every
    whitespace character, and group 2 cannot match one, so a match that is
    being tried ends at the first character that is not whitespace; it
    fails only at the end of the text, where nothing is left to rescan but
    whitespace. After a match the reading goes on behind group 2. *)
Fixpoint sub_from (mark : N) (pending : bool) (text : Text) : Text :=
  match text with
  | [] => []
  | c :: rest =>
      if pending then
        if is_space c then c :: sub_from mark true rest
        else if is_group2 c then nl :: sp :: sp :: c :: sub_from mark false rest
        else c :: sub_from mark (c =? mark)%N rest
      else c :: sub_from mark (c =? mark)%N rest
  end.

Definition sub_block (mark : N) (text : Text) : Text := sub_from mark false text.

Definition fix_block_scalars (text : Text) : Text :=
  let text := sub_block bar text in
  let text := sub_block gt text in
  text.


End BlockScalars.

(** ** Further definitions: the strict variant *)

Section Strict.
Variable set_iter : gset string -> list string.
Variable safe_load : string -> Exception + Tree.
Variable safe_dump : (string -> ScalarNode) -> Tree -> string * option Exception.
Variable py_str : Tree -> string.

(** [process_yaml_file] of [aap_prefix3.py]: the one of [aap_prefix4.py]
    without the repair of the raw text. *)
Definition process_yaml_file_strict (filepath prefix : string)
    (keys_to_prefix : list string) (w : World) : World * option Exception :=
  process_yaml_file set_iter (fun raw => raw) safe_load safe_dump py_str
    filepath prefix keys_to_prefix w.

(** The loop of [aap_prefix3.py], which has no [try]: the first exception
    ends the run. *)
Fixpoint run_files_strict (prefix : string) (entries : list (string * list string))
    (w : World) : World * option Exception :=
  match entries with
  | [] => (w, None)
  | (filename, keys) :: rest =>
      match files w !! filename with
      | Some _ =>
          match process_yaml_file_strict filename prefix keys w with
          | (w', None) => run_files_strict prefix rest w'
          | (w', Some e) => (w', Some e)
          end
      | None =>
          run_files_strict prefix rest
            (print ("⚠️ Skipping " +:+ filename +:+ " (not found)") w)
      end
  end.

(** The main block of [aap_prefix3.py]: the lookup table is printed only
    if the loop came to its end. *)
Definition main_strict (prefix : string) (w : World) : World * option Exception :=
  match run_files_strict prefix file_key_map (fresh_table w) with
  | (w1, None) =>
      (print_all
         (map (fun kv => "  " +:+ fst kv +:+ " -> " +:+ snd kv) (lookup_table w1))
         (print (newline +:+ "Lookup table (old -> new values):") w1),
       None)
  | (w1, Some e) => (w1, Some e)
  end.

End Strict.

(** ** Further definitions: the files after a run *)

Section FilesAfter.
Variable fix_block_scalars : string -> string.
Variable safe_load : string -> Exception + Tree.
Variable safe_dump : (string -> ScalarNode) -> Tree -> string * option Exception.

(** What a file of content [content] holds after it was processed with
    the keys [keys], in a run whose representer tables were [y] at the
    start: nothing if there was no file, its content if the content does
    not parse, and otherwise the text that reached the stream in the dump
    of the rewritten tree, whether the dump raised or not. *)
Definition file_after (prefix : string) (keys : list string) (y : Yaml)
    (content : option string) : option string :=
  match content with
  | Some raw =>
      match safe_load (fix_block_scalars raw) with
      | inr t =>
          Some (fst (safe_dump (str_representer SafeDumper y)
                       (fst (recursive_prefix_lookup t prefix keys []))))
      | inl _ => Some raw
      end
  | None => None
  end.

End FilesAfter.

(** ** Further definitions: a change read backwards *)

(** The two values are not two mappings and not two sequences: the case in
    which [diff_dict] compares them with [!=]. *)
Definition kind_differs (a b : Tree) : Prop :=
  match a, b with
  | TDict _, TDict _ | TList _, TList _ => False
  | _, _ => True
  end.

Definition swap_change (c : Change) : Change :=
  let '(path, old, new) := c in (path, new, old).
(** ** Facts about dicts *)

Lemma eqb_decide (a b : string) : String.eqb a b = bool_decide (a = b).
Proof.
  destruct (String.eqb_spec a b) as [->|Hne].
  - by rewrite bool_decide_eq_true_2.
  - by rewrite bool_decide_eq_false_2.
Qed.

Lemma set_fresh {V} (k : string) (v : V) (d : list (string * V)) :
  k ∉ map fst d -> PyDict.set k v d = d ++ [(k, v)].
Proof.
  induction d as [|[k' v'] d IH]; simpl; intros Hk; [done|].
  apply not_elem_of_cons in Hk as [Hne Hk].
  destruct (String.eqb_spec k k') as [->|_]; [done|].
  by rewrite IH.
Qed.

Lemma get_map_snd {V W} (f : string * V -> W) (k : string) (d : list (string * V)) :
  PyDict.get k (map (fun kv => (fst kv, f kv)) d)
  = match PyDict.get k d with Some v => Some (f (k, v)) | None => None end.
Proof.
  induction d as [|[k' v'] d IH]; simpl; [done|].
  destruct (String.eqb_spec k k') as [->|_]; [done|]. apply IH.
Qed.

Lemma get_elem_of {V} (k : string) (v : V) (d : list (string * V)) :
  PyDict.get k d = Some v -> (k, v) ∈ d.
Proof.
  induction d as [|[k' v'] d IH]; simpl; [done|].
  destruct (String.eqb_spec k k') as [->|_].
  - intros [= ->]. apply list_elem_of_here.
  - intros H. apply list_elem_of_further. auto.
Qed.

Lemma wf_dict items :
  wf (TDict items) <-> NoDup (map fst items) /\ Forall (fun kv => wf (snd kv)) items.
Proof.
  simpl. apply and_iff_compat_l.
  induction items as [|kv r IH]; simpl.
  - split; auto.
  - rewrite IH. split.
    + intros [? ?]. by constructor.
    + intros H. by inversion H.
Qed.

Lemma wf_list items : wf (TList items) <-> Forall wf items.
Proof.
  simpl. induction items as [|x r IH]; simpl.
  - split; auto.
  - rewrite IH. split.
    + intros [? ?]. by constructor.
    + intros H. by inversion H.
Qed.

Example scenario1_run :
  recursive_prefix_lookup
    (TDict [("name", TStr "web"); ("organization", TStr "infra")])
    "dev_" ["name"; "organization"] []
  = (TDict [("name", TStr "dev_web"); ("organization", TStr "dev_infra")],
     [("web", "dev_web"); ("infra", "dev_infra")]).
Proof. reflexivity. Qed.


Lemma wfb_wf t : wfb t = true -> wf t.
Proof.
  induction t as [| | | | |items IH|items IH] using Tree_ind; try done.
  - intros H. apply wf_list. simpl in H. rewrite forallb_forall in H.
    rewrite Forall_forall in IH |- *. intros x Hx. apply IH; [done|].
    apply H. by apply list_elem_of_In.
  - intros H. apply wf_dict. simpl in H. apply andb_prop in H as [H1 H2].
    split; [by apply bool_decide_eq_true in H1|].
    rewrite forallb_forall in H2. rewrite Forall_forall in IH |- *.
    intros x Hx. apply IH; [done|]. apply H2. by apply list_elem_of_In.
Qed.

(** ** The rewriter, split into its tree and its writes *)

Lemma record_all_app prefix a b lk :
  record_all prefix (a ++ b) lk = record_all prefix b (record_all prefix a lk).
Proof. unfold record_all. apply fold_left_app. Qed.

Lemma rpl_unfold_dict items prefix keys lk :
  recursive_prefix_lookup (TDict items) prefix keys lk
  = let '(new_data, lk') :=
      rewrite_items (fun v l => recursive_prefix_lookup v prefix keys l)
                    prefix keys items [] lk in
    (TDict new_data, lk').
Proof. reflexivity. Qed.

Lemma rpl_unfold_list items prefix keys lk :
  recursive_prefix_lookup (TList items) prefix keys lk
  = let '(new_items, lk') :=
      rewrite_list (fun v l => recursive_prefix_lookup v prefix keys l) items lk in
    (TList new_items, lk').
Proof. reflexivity. Qed.

Section LoopFacts.
Variable rec : Tree -> Lookup -> Tree * Lookup.
Variable prefix : string.
Variable keys : list string.
Variable tree_of : Tree -> Tree.
Variable writes_of : Tree -> list string.

Let entry_value (kv : string * Tree) : Tree :=
  match eligible prefix keys (fst kv) (snd kv) with
  | Some s => if startswith s prefix then snd kv else TStr (prefix +:+ s)
  | None => tree_of (snd kv)
  end.

Let entry_writes (kv : string * Tree) : list string :=
  match eligible prefix keys (fst kv) (snd kv) with
  | Some s => if startswith s prefix then [] else [s]
  | None => writes_of (snd kv)
  end.

Lemma rewrite_items_lookup items new_data lk :
  Forall (fun kv => forall l, snd (rec (snd kv) l) = record_all prefix (writes_of (snd kv)) l)
         items ->
  snd (rewrite_items rec prefix keys items new_data lk)
  = record_all prefix (flat_map entry_writes items) lk.
Proof.
  intros HF. revert new_data lk.
  induction HF as [|[k v] items Hv _ IH]; intros new_data lk; simpl; [done|].
  rewrite record_all_app.
  change (entry_writes (k, v)) with
    (match (if key_in k keys then is_str v else None) with
     | Some s => if startswith s prefix then [] else [s]
     | None => writes_of v
     end).
  simpl in Hv.
  destruct (key_in k keys); [destruct (is_str v) as [s|]|].
  - destruct (startswith s prefix); simpl; apply IH.
  - specialize (Hv lk). destruct (rec v lk) as [v' lk']. simpl in Hv.
    rewrite IH. by rewrite Hv.
  - specialize (Hv lk). destruct (rec v lk) as [v' lk']. simpl in Hv.
    rewrite IH. by rewrite Hv.
Qed.

Lemma rewrite_items_tree items new_data lk :
  NoDup (map fst new_data ++ map fst items) ->
  Forall (fun kv => forall l, fst (rec (snd kv) l) = tree_of (snd kv)) items ->
  fst (rewrite_items rec prefix keys items new_data lk)
  = new_data ++ map (fun kv => (fst kv, entry_value kv)) items.
Proof.
  intros Hnd HF. revert new_data lk Hnd.
  induction HF as [|[k v] items Hv _ IH]; intros new_data lk Hnd; simpl.
  { by rewrite app_nil_r. }
  assert (Hk : k ∉ map fst new_data).
  { apply NoDup_app in Hnd as (_ & Hdis & _). intros Hin.
    apply (Hdis k Hin). simpl. apply list_elem_of_here. }
  assert (Hnd' : forall x, NoDup (map fst (new_data ++ [(k, x)]) ++ map fst items)).
  { intros x. rewrite map_app. simpl. by rewrite <- app_assoc. }
  change (entry_value (k, v)) with
    (match (if key_in k keys then is_str v else None) with
     | Some s => if startswith s prefix then v else TStr (prefix +:+ s)
     | None => tree_of v
     end).
  simpl in Hv.
  destruct (key_in k keys); [destruct (is_str v) as [s|]|].
  - destruct (startswith s prefix); simpl;
      rewrite set_fresh by done; rewrite IH by apply Hnd';
      by rewrite <- app_assoc.
  - specialize (Hv lk). destruct (rec v lk) as [v' lk']. simpl in Hv. subst v'.
    rewrite set_fresh by done. rewrite IH by apply Hnd'. by rewrite <- app_assoc.
  - specialize (Hv lk). destruct (rec v lk) as [v' lk']. simpl in Hv. subst v'.
    rewrite set_fresh by done. rewrite IH by apply Hnd'. by rewrite <- app_assoc.
Qed.

Lemma rewrite_list_lookup items lk :
  Forall (fun v => forall l, snd (rec v l) = record_all prefix (writes_of v) l) items ->
  snd (rewrite_list rec items lk) = record_all prefix (flat_map writes_of items) lk.
Proof.
  intros HF. revert lk.
  induction HF as [|v items Hv _ IH]; intros lk; simpl; [done|].
  specialize (Hv lk). destruct (rec v lk) as [v' lk1]. simpl in Hv.
  specialize (IH lk1). destruct (rewrite_list rec items lk1) as [vs lk2].
  simpl in *. rewrite record_all_app. by rewrite <- Hv.
Qed.

Lemma rewrite_list_tree items lk :
  Forall (fun v => forall l, fst (rec v l) = tree_of v) items ->
  fst (rewrite_list rec items lk) = map tree_of items.
Proof.
  intros HF. revert lk.
  induction HF as [|v items Hv _ IH]; intros lk; simpl; [done|].
  specialize (Hv lk). destruct (rec v lk) as [v' lk1]. simpl in Hv.
  specialize (IH lk1). destruct (rewrite_list rec items lk1) as [vs lk2].
  simpl in *. by subst.
Qed.
End LoopFacts.

(** The table after a rewrite is the table before with the writes of the
    tree recorded, for every tree. *)
Lemma rpl_lookup t prefix keys lk :
  snd (recursive_prefix_lookup t prefix keys lk)
  = record_all prefix (writes prefix keys t) lk.
Proof.
  revert lk. induction t as [| | | | |items IH|items IH] using Tree_ind; intros lk; try reflexivity.
  - rewrite rpl_unfold_list.
    pose proof (rewrite_list_lookup
      (fun v l => recursive_prefix_lookup v prefix keys l) prefix
      (writes prefix keys) items lk IH) as H.
    destruct (rewrite_list _ items lk) as [vs lk']. apply H.
  - rewrite rpl_unfold_dict.
    pose proof (rewrite_items_lookup
      (fun v l => recursive_prefix_lookup v prefix keys l) prefix keys
      (writes prefix keys) items [] lk IH) as H.
    destruct (rewrite_items _ prefix keys items [] lk) as [nd lk']. apply H.
Qed.

(** The tree a rewrite returns on a well-formed tree. *)
Lemma rpl_tree t prefix keys lk :
  wf t -> fst (recursive_prefix_lookup t prefix keys lk) = prefixed prefix keys t.
Proof.
  revert lk. induction t as [| | | | |items IH|items IH] using Tree_ind; intros lk Hwf; try reflexivity.
  - rewrite rpl_unfold_list. apply wf_list in Hwf.
    assert (HF : Forall (fun v => forall l,
               fst (recursive_prefix_lookup v prefix keys l) = prefixed prefix keys v) items).
    { apply Forall_forall. intros v Hv l.
      rewrite Forall_forall in IH. rewrite Forall_forall in Hwf. by apply IH; [|apply Hwf]. }
    pose proof (rewrite_list_tree
      (fun v l => recursive_prefix_lookup v prefix keys l)
      (prefixed prefix keys) items lk HF) as H.
    destruct (rewrite_list _ items lk) as [vs lk']. simpl in *. by rewrite H.
  - rewrite rpl_unfold_dict. apply wf_dict in Hwf as [Hnd Hwf].
    assert (HF : Forall (fun kv => forall l,
               fst (recursive_prefix_lookup (snd kv) prefix keys l)
               = prefixed prefix keys (snd kv)) items).
    { apply Forall_forall. intros kv Hkv l.
      rewrite Forall_forall in IH. rewrite Forall_forall in Hwf. by apply IH; [|apply Hwf]. }
    pose proof (rewrite_items_tree
      (fun v l => recursive_prefix_lookup v prefix keys l) prefix keys
      (prefixed prefix keys) items [] lk Hnd HF) as H.
    destruct (rewrite_items _ prefix keys items [] lk) as [nd lk']. simpl in *. by rewrite H.
Qed.

Lemma rpl_split t prefix keys lk :
  wf t ->
  recursive_prefix_lookup t prefix keys lk
  = (prefixed prefix keys t, record_all prefix (writes prefix keys t) lk).
Proof.
  intros Hwf. rewrite <- (rpl_tree t prefix keys lk Hwf), <- rpl_lookup.
  by destruct (recursive_prefix_lookup t prefix keys lk).
Qed.

(** ** Strings and the lookup table *)

Lemma startswith_app prefix s : startswith (prefix +:+ s) prefix = true.
Proof.
  unfold startswith. induction prefix as [|c prefix IH]; simpl.
  - by destruct s.
  - destruct (ascii_dec c c); [apply IH | done].
Qed.

Lemma startswith_empty s : startswith s "" = true.
Proof. by destruct s. Qed.

Lemma get_set_eq {V} (k : string) (v : V) d : PyDict.get k (PyDict.set k v d) = Some v.
Proof.
  induction d as [|[k' v'] d IH]; simpl.
  - by rewrite String.eqb_refl.
  - destruct (String.eqb_spec k k') as [->|Hne]; simpl.
    + by rewrite String.eqb_refl.
    + apply String.eqb_neq in Hne. by rewrite Hne.
Qed.

Lemma get_set_ne {V} (k k' : string) (v : V) d :
  k <> k' -> PyDict.get k' (PyDict.set k v d) = PyDict.get k' d.
Proof.
  intros Hne. induction d as [|[k0 v0] d IH]; simpl.
  - destruct (String.eqb_spec k' k) as [->|_]; [done | reflexivity].
  - destruct (String.eqb_spec k k0) as [->|Hk]; simpl.
    + destruct (String.eqb_spec k' k0) as [->|_]; [done | reflexivity].
    + destruct (String.eqb_spec k' k0); [done | apply IH].
Qed.

Lemma record_all_keep prefix olds lk s :
  PyDict.get s lk = Some (prefix +:+ s) ->
  PyDict.get s (record_all prefix olds lk) = Some (prefix +:+ s).
Proof.
  revert lk. induction olds as [|o olds IH]; intros lk H; simpl; [done|].
  apply IH. destruct (decide (o = s)) as [->|Hne].
  - apply get_set_eq.
  - by rewrite get_set_ne.
Qed.

Lemma record_all_written prefix olds lk s :
  s ∈ olds -> PyDict.get s (record_all prefix olds lk) = Some (prefix +:+ s).
Proof.
  revert lk. induction olds as [|o olds IH]; intros lk H; simpl.
  - by apply elem_of_nil in H.
  - apply elem_of_cons in H as [<-|H].
    + apply record_all_keep, get_set_eq.
    + by apply IH.
Qed.

Lemma record_all_other prefix olds lk s :
  s ∉ olds -> PyDict.get s (record_all prefix olds lk) = PyDict.get s lk.
Proof.
  revert lk. induction olds as [|o olds IH]; intros lk H; simpl; [done|].
  apply not_elem_of_cons in H as [Hne H].
  rewrite IH by done. by apply get_set_ne.
Qed.

(** Every old value a rewrite writes does not start with the prefix. *)
Lemma writes_not_prefixed prefix keys t s :
  s ∈ writes prefix keys t -> startswith s prefix = false.
Proof.
  induction t as [| | | | |items IH|items IH] using Tree_ind; simpl; intros Hs;
    try by apply elem_of_nil in Hs.
  - apply list_elem_of_In, in_flat_map in Hs as (v & Hv & Hs).
    rewrite Forall_forall in IH. apply (IH v); [by apply list_elem_of_In|].
    by apply list_elem_of_In.
  - apply list_elem_of_In, in_flat_map in Hs as ([k v] & Hv & Hs).
    rewrite Forall_forall in IH. specialize (IH (k, v)). simpl in *.
    unfold eligible in Hs.
    destruct (key_in k keys); [destruct (is_str v) as [s0|]|].
    + destruct (startswith s0 prefix) eqn:E; simpl in Hs; [done|].
      destruct Hs as [<-|[]]. done.
    + apply IH; by apply list_elem_of_In.
    + apply IH; by apply list_elem_of_In.
Qed.

(** ** C1: eligible string values are prefixed and recorded *)

Lemma in_writes_dict prefix keys items k v s :
  (k, v) ∈ items ->
  s ∈ match eligible prefix keys k v with
      | Some s0 => if startswith s0 prefix then [] else [s0]
      | None => writes prefix keys v
      end ->
  s ∈ writes prefix keys (TDict items).
Proof.
  intros Hkv Hs. simpl. apply list_elem_of_In, in_flat_map.
  exists (k, v). split; by apply list_elem_of_In.
Qed.

Lemma in_writes_list prefix keys items v s :
  v ∈ items -> s ∈ writes prefix keys v -> s ∈ writes prefix keys (TList items).
Proof.
  intros Hv Hs. simpl. apply list_elem_of_In, in_flat_map.
  exists v. split; by apply list_elem_of_In.
Qed.

Lemma tree_get_str_snoc path k s : tree_get (path ++ [Key k]) (TStr s) = None.
Proof. by destruct path as [|[]]. Qed.

Lemma prefixed_entry prefix keys path k v t :
  tree_get (path ++ [Key k]) t = Some (TStr v) ->
  key_in k keys = true ->
  startswith v prefix = false ->
  tree_get (path ++ [Key k]) (prefixed prefix keys t) = Some (TStr (prefix +:+ v))
  /\ v ∈ writes prefix keys t.
Proof.
  intros Hget Hk Hv. revert t Hget.
  induction path as [|[k1|i] path IH]; intros t Hget; simpl in Hget.
  - destruct t as [| | | | | |items]; try done.
    destruct (PyDict.get k items) as [x|] eqn:E; [|done].
    injection Hget as ->. split.
    + simpl. rewrite get_map_snd, E. simpl. unfold eligible. rewrite Hk. simpl.
      by rewrite Hv.
    + eapply in_writes_dict; [by apply get_elem_of|].
      unfold eligible. rewrite Hk. simpl. rewrite Hv. apply list_elem_of_here.
  - destruct t as [| | | | | |items]; try done.
    destruct (PyDict.get k1 items) as [sub|] eqn:E; [|done].
    assert (Hns : eligible prefix keys k1 sub = None).
    { unfold eligible. destruct (key_in k1 keys); [|done].
      destruct sub; try done. by rewrite tree_get_str_snoc in Hget. }
    destruct (IH sub Hget) as [IH1 IH2]. split.
    + simpl. rewrite get_map_snd, E. simpl. by rewrite Hns.
    + eapply in_writes_dict; [by apply get_elem_of|]. by rewrite Hns.
  - destruct t as [| | | | |items|]; try done.
    destruct (items !! i) as [sub|] eqn:E; [|done].
    destruct (IH sub Hget) as [IH1 IH2]. split.
    + simpl. rewrite list_lookup_fmap, E. done.
    + eapply in_writes_list; [|done]. by eapply list_elem_of_lookup_2.
Qed.

(** C1. In a run of the rewriter on a well-formed tree, a string [v] that
    does not start with the prefix and sits, anywhere in the tree, under a
    key of [keys_to_prefix] is replaced by [prefix + v], and the lookup
    table returned maps [v] to [prefix + v] whatever it held for [v]
    before. On the tree of scenario 1 the rewriter returns the tree and the
    table the scenario gives. *)
Theorem C1_prefix_and_record :
  (forall (t : Tree) (prefix : string) (keys_to_prefix : list string)
          (lookup : Lookup) (path : list Step) (k v : string),
      wf t ->
      tree_get (path ++ [Key k]) t = Some (TStr v) ->
      key_in k keys_to_prefix = true ->
      startswith v prefix = false ->
      let '(t', lookup') := recursive_prefix_lookup t prefix keys_to_prefix lookup in
      tree_get (path ++ [Key k]) t' = Some (TStr (prefix +:+ v))
      /\ PyDict.get v lookup' = Some (prefix +:+ v))
  /\ recursive_prefix_lookup
       (TDict [("name", TStr "web"); ("organization", TStr "infra")])
       "dev_" ["name"; "organization"] []
     = (TDict [("name", TStr "dev_web"); ("organization", TStr "dev_infra")],
        [("web", "dev_web"); ("infra", "dev_infra")]).
Proof.
  split; [|reflexivity].
  intros t prefix keys lookup path k v Hwf Hget Hk Hv.
  rewrite rpl_split by done.
  destruct (prefixed_entry prefix keys path k v t Hget Hk Hv) as [H1 H2].
  split; [done|]. by apply record_all_written.
Qed.

Lemma C1_prefix_and_record_witness :
  let t := TDict [("teams", TList [TDict [("name", TStr "ops"); ("size", TInt 3)]])] in
  let '(t', lookup') :=
    recursive_prefix_lookup t "dev_" ["name"] [("ops", "old_ops")] in
  tree_get ([Key "teams"; Idx 0] ++ [Key "name"]) t' = Some (TStr "dev_ops")
  /\ PyDict.get "ops" lookup' = Some "dev_ops".
Proof.
  apply (proj1 C1_prefix_and_record
           (TDict [("teams", TList [TDict [("name", TStr "ops"); ("size", TInt 3)]])])
           "dev_" ["name"] [("ops", "old_ops")] [Key "teams"; Idx 0] "name" "ops").
  - apply wfb_wf. reflexivity.
  - reflexivity.
  - reflexivity.
  - reflexivity.
Defined.

(** ** C2: a second pass changes nothing *)

Lemma prefixed_not_str prefix keys v :
  is_str v = None -> is_str (prefixed prefix keys v) = None.
Proof. by destruct v. Qed.

Lemma prefixed_keys prefix keys items :
  map fst (map (fun kv : string * Tree =>
                  (fst kv,
                   match eligible prefix keys (fst kv) (snd kv) with
                   | Some s => if startswith s prefix then snd kv
                               else TStr (prefix +:+ s)
                   | None => prefixed prefix keys (snd kv)
                   end)) items)
  = map fst items.
Proof. rewrite map_map. by apply map_ext. Qed.

Lemma prefixed_wf prefix keys t : wf t -> wf (prefixed prefix keys t).
Proof.
  induction t as [| | | | |items IH|items IH] using Tree_ind; try done.
  - intros H. apply wf_list in H. apply wf_list.
    apply Forall_map. rewrite Forall_forall in IH, H |- *. auto.
  - intros H. apply wf_dict in H as [Hnd H]. apply wf_dict.
    rewrite prefixed_keys. split; [done|].
    apply Forall_map. rewrite Forall_forall in IH, H |- *.
    intros [k v] Hkv. simpl. specialize (IH _ Hkv). specialize (H _ Hkv). simpl in *.
    destruct (eligible prefix keys k v) as [s|]; [|auto].
    by destruct (startswith s prefix).
Qed.

(** What the rewriter does with an entry it has already rewritten. *)
Lemma entry_settled prefix keys k v :
  let v' := match eligible prefix keys k v with
            | Some s => if startswith s prefix then v else TStr (prefix +:+ s)
            | None => prefixed prefix keys v
            end in
  match eligible prefix keys k v' with
  | Some s' => startswith s' prefix = true
  | None => eligible prefix keys k v = None /\ v' = prefixed prefix keys v
  end.
Proof.
  unfold eligible. simpl. destruct (key_in k keys) eqn:Hk; [|done].
  destruct (is_str v) as [s|] eqn:Hs.
  - destruct v; try done. injection Hs as ->.
    destruct (startswith s prefix) eqn:E; simpl; [done|]. apply startswith_app.
  - by rewrite prefixed_not_str.
Qed.

Lemma prefixed_idem prefix keys t :
  prefixed prefix keys (prefixed prefix keys t) = prefixed prefix keys t.
Proof.
  induction t as [| | | | |items IH|items IH] using Tree_ind; try done.
  - simpl. f_equal. rewrite map_map. apply map_ext_in.
    intros v Hv. apply list_elem_of_In in Hv. rewrite Forall_forall in IH. by apply IH.
  - simpl. f_equal. rewrite map_map. apply map_ext_in.
    intros [k v] Hkv. apply list_elem_of_In in Hkv. simpl. f_equal.
    pose proof (entry_settled prefix keys k v) as Hs. simpl in Hs.
    rewrite Forall_forall in IH. specialize (IH _ Hkv). simpl in IH.
    destruct (eligible prefix keys k _) as [s'|].
    + by rewrite Hs.
    + destruct Hs as [Hn _]. by rewrite Hn.
Qed.

Lemma flat_map_nil {A B} (f : A -> list B) (l : list A) :
  (forall x, In x l -> f x = []) -> flat_map f l = [].
Proof.
  induction l as [|x l IH]; simpl; intros H; [done|].
  rewrite (H x) by auto. apply IH. auto.
Qed.

Lemma writes_prefixed prefix keys t :
  writes prefix keys (prefixed prefix keys t) = [].
Proof.
  induction t as [| | | | |items IH|items IH] using Tree_ind; try done.
  - simpl. apply flat_map_nil. intros v' Hv'.
    apply in_map_iff in Hv' as (v & <- & Hv). apply list_elem_of_In in Hv.
    rewrite Forall_forall in IH. by apply IH.
  - simpl. apply flat_map_nil. intros [k' v'] Hv'.
    apply in_map_iff in Hv' as ([k v] & [= <- <-] & Hkv). apply list_elem_of_In in Hkv. simpl.
    pose proof (entry_settled prefix keys k v) as Hs. simpl in Hs.
    rewrite Forall_forall in IH. specialize (IH _ Hkv). simpl in IH.
    destruct (eligible prefix keys k _) as [s'|].
    + by rewrite Hs.
    + destruct Hs as [Hn _]. by rewrite Hn.
Qed.

(** C2. The rewriter is idempotent: on the tree a first pass returns for a
    well-formed tree, a second pass with the same prefix and keys returns
    that tree again, and writes nothing to the lookup table. *)
Theorem C2_idempotent (t : Tree) (prefix : string) (keys_to_prefix : list string)
    (lookup lookup2 : Lookup) :
  wf t ->
  let once := fst (recursive_prefix_lookup t prefix keys_to_prefix lookup) in
  recursive_prefix_lookup once prefix keys_to_prefix lookup2 = (once, lookup2).
Proof.
  intros Hwf. simpl. rewrite rpl_tree by done.
  rewrite rpl_split by by apply prefixed_wf.
  by rewrite prefixed_idem, writes_prefixed.
Qed.

Lemma C2_idempotent_witness :
  let t := TDict [("name", TStr "web"); ("hosts", TList [TDict [("name", TStr "dev_a")]])] in
  let once := fst (recursive_prefix_lookup t "dev_" ["name"] []) in
  once = TDict [("name", TStr "dev_web"); ("hosts", TList [TDict [("name", TStr "dev_a")]])]
  /\ recursive_prefix_lookup once "dev_" ["name"] [("web", "dev_web")]
     = (once, [("web", "dev_web")]).
Proof.
  split; [reflexivity|].
  apply (C2_idempotent
           (TDict [("name", TStr "web"); ("hosts", TList [TDict [("name", TStr "dev_a")]])])
           "dev_" ["name"] [] [("web", "dev_web")]).
  apply wfb_wf. reflexivity.
Defined.

(** ** C3: the rewritten tree has the shape of the input *)

Lemma same_shape_dict_keys keys m t' :
  same_shape keys (TDict m) t' ->
  exists m', t' = TDict m' /\ PyDict.keys m' = PyDict.keys m.
Proof.
  intros H. inversion H as [t Hleaf| |m0 m' HF]; subst; [done|].
  exists m'. split; [done|]. unfold PyDict.keys.
  clear H. induction HF as [|kv kv' l l' [Hk _] _ IH]; simpl; [done|].
  by rewrite Hk, IH.
Qed.

Lemma same_shape_list_length keys l t' :
  same_shape keys (TList l) t' ->
  exists l', t' = TList l' /\ length l' = length l.
Proof.
  intros H. inversion H as [t Hleaf|l0 l' HF|]; subst; [done|].
  exists l'. split; [done|]. symmetry. by eapply Forall2_length.
Qed.

Lemma same_shape_leaf keys t t' : is_leaf t -> same_shape keys t t' -> t' = t.
Proof. intros Hl H. by inversion H; subst. Qed.

Lemma prefixed_same_shape prefix keys t :
  same_shape keys t (prefixed prefix keys t).
Proof.
  induction t as [| | | | |items IH|items IH] using Tree_ind;
    try (by apply shape_leaf).
  - simpl. apply shape_list. induction IH as [|v items Hv _ IH]; simpl; by constructor.
  - simpl. apply shape_dict.
    induction IH as [|[k v] items Hv _ IH]; simpl; constructor; [|done].
    split; [done|]. simpl in *. unfold eligible.
    destruct (key_in k keys) eqn:Hk; [|by left].
    destruct v; simpl; try by left.
    destruct (startswith s prefix); [by left|]. right. eauto.
Qed.

(** C3. The tree the rewriter returns for a well-formed tree has the shape
    of the input: every mapping keeps its keys in their order, every
    sequence its length, every leaf its value, except strings directly
    under a key of [keys_to_prefix], which are replaced by strings. *)
Theorem C3_structure_preserved (t : Tree) (prefix : string)
    (keys_to_prefix : list string) (lookup : Lookup) :
  wf t ->
  same_shape keys_to_prefix t
    (fst (recursive_prefix_lookup t prefix keys_to_prefix lookup)).
Proof.
  intros Hwf. rewrite rpl_tree by done. apply prefixed_same_shape.
Qed.

Lemma C3_structure_preserved_witness :
  same_shape ["name"]
    (TDict [("name", TStr "web"); ("ports", TList [TInt 80; TInt 443]); ("note", TNull)])
    (fst (recursive_prefix_lookup
            (TDict [("name", TStr "web"); ("ports", TList [TInt 80; TInt 443]);
                    ("note", TNull)])
            "dev_" ["name"] [])).
Proof.
  apply (C3_structure_preserved
           (TDict [("name", TStr "web"); ("ports", TList [TInt 80; TInt 443]);
                   ("note", TNull)])
           "dev_" ["name"] []).
  apply wfb_wf. reflexivity.
Defined.

(** ** C4: a value that is not a string is recursed into *)

Lemma prefixed_leaves prefix keys l :
  Forall is_leaf l -> map (prefixed prefix keys) l = l.
Proof.
  induction 1 as [|x l Hx _ IH]; simpl; [done|]. rewrite IH. by destruct x.
Qed.

Lemma writes_leaves prefix keys l :
  Forall is_leaf l -> flat_map (writes prefix keys) l = [].
Proof.
  induction 1 as [|x l Hx _ IH]; simpl; [done|]. rewrite IH. by destruct x.
Qed.

Lemma wf_leaves l : Forall is_leaf l -> Forall wf l.
Proof. intros H. eapply Forall_impl; [exact H|]. by intros []. Qed.

(** C4. Under any key, eligible or not, a value of a well-formed mapping
    that is not a string is replaced by what the rewriter returns for that
    value. A list of scalars under a key is therefore returned as it is and
    nothing is written to the lookup table; so it is for the tree of
    scenario 3. *)
Theorem C4_non_string_recursed :
  (forall (items : list (string * Tree)) (k : string) (v : Tree) (prefix : string)
          (keys_to_prefix : list string) (lookup lookup_v : Lookup),
      wf (TDict items) ->
      PyDict.get k items = Some v ->
      is_str v = None ->
      tree_get [Key k]
        (fst (recursive_prefix_lookup (TDict items) prefix keys_to_prefix lookup))
      = Some (fst (recursive_prefix_lookup v prefix keys_to_prefix lookup_v)))
  /\ (forall (k : string) (l : list Tree) (prefix : string)
             (keys_to_prefix : list string) (lookup : Lookup),
        Forall is_leaf l ->
        recursive_prefix_lookup (TDict [(k, TList l)]) prefix keys_to_prefix lookup
        = (TDict [(k, TList l)], lookup))
  /\ (forall lookup : Lookup,
        recursive_prefix_lookup
          (TDict [("credentials", TList [TStr "aws"; TStr "vault"])])
          "dev_" ["credentials"] lookup
        = (TDict [("credentials", TList [TStr "aws"; TStr "vault"])], lookup)).
Proof.
  assert (Hleaves : forall k l prefix keys lookup,
             Forall is_leaf l ->
             recursive_prefix_lookup (TDict [(k, TList l)]) prefix keys lookup
             = (TDict [(k, TList l)], lookup)).
  { intros k l prefix keys lookup Hl. rewrite rpl_split.
    - simpl. unfold eligible. simpl. rewrite prefixed_leaves by done.
      rewrite app_nil_r, writes_leaves by done.
      by destruct (key_in k keys).
    - apply wf_dict. split; [apply NoDup_singleton|].
      constructor; [|done]. simpl. by apply wf_list, wf_leaves. }
  split; [|split].
  - intros items k v prefix keys lookup lookup_v Hwf Hget Hns.
    rewrite rpl_tree by done. rewrite rpl_tree.
    + simpl. rewrite get_map_snd, Hget. simpl. unfold eligible. rewrite Hns.
      by destruct (key_in k keys).
    + apply wf_dict in Hwf as [_ Hwf]. rewrite Forall_forall in Hwf.
      apply (Hwf (k, v)). by apply get_elem_of.
  - apply Hleaves.
  - intros lookup. apply Hleaves. by repeat constructor.
Qed.

Lemma C4_non_string_recursed_witness :
  tree_get [Key "credentials"]
    (fst (recursive_prefix_lookup
            (TDict [("name", TStr "job"); ("credentials", TList [TStr "aws"])])
            "dev_" ["name"; "credentials"] []))
  = Some (fst (recursive_prefix_lookup (TList [TStr "aws"])
                 "dev_" ["name"; "credentials"] []))
  /\ recursive_prefix_lookup (TDict [("credentials", TList [TStr "aws"; TInt 3])])
       "dev_" ["credentials"] [("a", "dev_a")]
     = (TDict [("credentials", TList [TStr "aws"; TInt 3])], [("a", "dev_a")]).
Proof.
  split.
  - apply (proj1 C4_non_string_recursed
             [("name", TStr "job"); ("credentials", TList [TStr "aws"])]
             "credentials" (TList [TStr "aws"]) "dev_" ["name"; "credentials"] [] []).
    + apply wfb_wf. reflexivity.
    + reflexivity.
    + reflexivity.
  - apply (proj1 (proj2 C4_non_string_recursed)
             "credentials" [TStr "aws"; TInt 3] "dev_" ["credentials"] [("a", "dev_a")]).
    repeat constructor.
Defined.

(** ** C9: the invariant of the lookup table *)

Lemma lookup_inv_set prefix s lk :
  startswith s prefix = false ->
  lookup_inv prefix lk -> lookup_inv prefix (PyDict.set s (prefix +:+ s) lk).
Proof.
  intros Hs Hinv old new Hget. destruct (decide (s = old)) as [->|Hne].
  - rewrite get_set_eq in Hget. by injection Hget as <-.
  - rewrite get_set_ne in Hget by done. by apply Hinv.
Qed.

Lemma lookup_inv_record_all prefix olds lk :
  (forall s, s ∈ olds -> startswith s prefix = false) ->
  lookup_inv prefix lk -> lookup_inv prefix (record_all prefix olds lk).
Proof.
  revert lk. induction olds as [|o olds IH]; intros lk Holds Hinv; simpl; [done|].
  apply IH.
  - intros s Hs. apply Holds. by apply list_elem_of_further.
  - apply lookup_inv_set; [|done]. apply Holds, list_elem_of_here.
Qed.

Lemma rpl_lookup_inv t prefix keys lk :
  lookup_inv prefix lk ->
  lookup_inv prefix (snd (recursive_prefix_lookup t prefix keys lk)).
Proof.
  intros Hinv. rewrite rpl_lookup. apply lookup_inv_record_all; [|done].
  intros s. apply writes_not_prefixed.
Qed.

Lemma rewrite_all_inv prefix docs lk :
  lookup_inv prefix lk -> lookup_inv prefix (rewrite_all prefix docs lk).
Proof.
  revert lk. induction docs as [|[t keys] docs IH]; intros lk Hinv; simpl; [done|].
  by apply IH, rpl_lookup_inv.
Qed.

(** C9. Every rewrite call keeps the invariant of the lookup table: an
    entry maps an old value that does not start with the prefix to the
    prefix followed by that value. In a run, which starts from the empty
    table and rewrites its documents with one prefix, every entry of the
    table therefore has this form, and its value starts with the prefix. *)
Theorem C9_lookup_invariant :
  (forall (t : Tree) (prefix : string) (keys_to_prefix : list string) (lookup : Lookup),
      lookup_inv prefix lookup ->
      lookup_inv prefix (snd (recursive_prefix_lookup t prefix keys_to_prefix lookup)))
  /\ (forall (prefix : string) (docs : list (Tree * list string)) (old new : string),
        PyDict.get old (rewrite_all prefix docs []) = Some new ->
        new = prefix +:+ old
        /\ startswith old prefix = false
        /\ startswith new prefix = true).
Proof.
  split.
  - intros t prefix keys lookup. apply rpl_lookup_inv.
  - intros prefix docs old new Hget.
    assert (Hinv : lookup_inv prefix (rewrite_all prefix docs [])).
    { apply rewrite_all_inv. by intros ? ? ?. }
    destruct (Hinv old new Hget) as [-> Hold].
    split; [done|]. split; [done|]. apply startswith_app.
Qed.

Lemma C9_lookup_invariant_witness :
  PyDict.get "web"
    (rewrite_all "dev_"
       [(TDict [("name", TStr "web")], ["name"]);
        (TList [TDict [("name", TStr "db"); ("organization", TStr "web")]],
         ["name"; "organization"])] [])
  = Some "dev_web"
  /\ "dev_web" = "dev_" +:+ "web"
  /\ startswith "web" "dev_" = false
  /\ startswith "dev_web" "dev_" = true.
Proof.
  split; [reflexivity|].
  apply (proj2 C9_lookup_invariant "dev_"
           [(TDict [("name", TStr "web")], ["name"]);
            (TList [TDict [("name", TStr "db"); ("organization", TStr "web")]],
             ["name"; "organization"])] "web" "dev_web").
  reflexivity.
Defined.

(** ** C10: the empty prefix *)

Lemma prefixed_empty keys t : prefixed "" keys t = t.
Proof.
  induction t as [| | | | |items IH|items IH] using Tree_ind; try done.
  - simpl. f_equal. induction IH as [|v items Hv _ IH]; simpl; [done|].
    by rewrite Hv, IH.
  - simpl. f_equal. induction IH as [|[k v] items Hv _ IH]; simpl; [done|].
    rewrite IH. simpl in Hv. rewrite Hv.
    destruct (eligible "" keys k v) as [s|]; [|done]. by rewrite startswith_empty.
Qed.

Lemma writes_empty keys t : writes "" keys t = [].
Proof.
  induction t as [| | | | |items IH|items IH] using Tree_ind; try done.
  - simpl. induction IH as [|v items Hv _ IH]; simpl; [done|]. by rewrite Hv, IH.
  - simpl. induction IH as [|[k v] items Hv _ IH]; simpl; [done|].
    rewrite IH. simpl in Hv. rewrite Hv.
    destruct (eligible "" keys k v) as [s|]; [|done]. by rewrite startswith_empty.
Qed.

Lemma rpl_empty_prefix t keys lk :
  wf t -> recursive_prefix_lookup t "" keys lk = (t, lk).
Proof.
  intros Hwf. rewrite rpl_split by done. by rewrite prefixed_empty, writes_empty.
Qed.

(** ** C5: the differ on two sequences *)

Lemma diff_zip_imap rec path l1 l2 i :
  diff_zip rec path l1 l2 i
  = concat (imap (fun j p => rec (fst p) (snd p) (index_path path (i + j))) (zip l1 l2)).
Proof.
  revert l2 i. induction l1 as [|v1 l1 IH]; intros [|v2 l2] i; simpl; try done.
  rewrite Nat.add_0_r. f_equal. rewrite IH. f_equal.
  apply imap_ext. intros j p _. simpl. by rewrite Nat.add_succ_r.
Qed.

Lemma diff_range_all d mk : diff_range d 0 (length d) mk = imap mk d.
Proof.
  unfold diff_range. rewrite Nat.sub_0_r. revert mk.
  induction d as [|x d IH]; intros mk; [done|].
  cbn [length seq flat_map]. simpl. f_equal.
  rewrite <- seq_shift, flat_map_concat_map, map_map, <- flat_map_concat_map.
  apply (IH (fun i v => mk (S i) v)).
Qed.

Lemma diff_range_drop d lo mk :
  diff_range d lo (length d) mk = imap (fun j v => mk (lo + j) v) (drop lo d).
Proof.
  revert d mk. induction lo as [|lo IH]; intros d mk.
  - rewrite drop_0. apply diff_range_all.
  - destruct d as [|x d]; [done|].
    specialize (IH d (fun i v => mk (S i) v)). simpl. rewrite <- IH.
    unfold diff_range. simpl.
    rewrite <- seq_shift, flat_map_concat_map, map_map, <- flat_map_concat_map.
    done.
Qed.

Lemma diff_dict_list set_iter l1 l2 path :
  diff_dict set_iter (TList l1) (TList l2) path
  = concat (imap (fun i p => diff_dict set_iter (fst p) (snd p) (index_path path i))
                 (zip l1 l2))
    ++ imap (fun j v => (index_path path (length l1 + j), TNull, v))
            (drop (length l1) l2)
    ++ imap (fun j v => (index_path path (length l2 + j), v, TNull))
            (drop (length l2) l1).
Proof.
  change (diff_dict set_iter (TList l1) (TList l2) path)
    with (diff_zip (diff_dict set_iter) path l1 l2 0
          ++ diff_range l2 (length l1) (length l2)
               (fun i v => (index_path path i, TNull, v))
          ++ diff_range l1 (length l2) (length l1)
               (fun i v => (index_path path i, v, TNull))).
  by rewrite diff_zip_imap, !diff_range_drop.
Qed.

(** C5. On two sequences [diff_dict] returns the changes of the elements
    at the positions both have, compared in order under the bracketed
    paths, then one addition [(path[i], None, updated[i])] for each
    position only the updated sequence has, then one removal
    [(path[i], original[i], None)] for each position only the original
    has; one of the last two parts is empty. For scenario 4 this is one
    change at [[1]] followed by one addition at [[2]]. *)
Theorem C5_diff_sequences (set_iter : gset string -> list string) :
  (forall (original updated : list Tree) (path : string),
      diff_dict set_iter (TList original) (TList updated) path
      = concat (imap (fun i p =>
                        diff_dict set_iter (fst p) (snd p) (index_path path i))
                     (zip original updated))
        ++ imap (fun j v => (index_path path (length original + j), TNull, v))
                (drop (length original) updated)
        ++ imap (fun j v => (index_path path (length updated + j), v, TNull))
                (drop (length updated) original)
      /\ (drop (length original) updated = [] \/ drop (length updated) original = []))
  /\ diff_dict set_iter (TList [TStr "a"; TStr "b"])
                        (TList [TStr "a"; TStr "x"; TStr "c"]) ""
     = [("[1]", TStr "b", TStr "x"); ("[2]", TNull, TStr "c")].
Proof.
  split; [|reflexivity].
  intros original updated path. split; [apply diff_dict_list|].
  destruct (Nat.le_gt_cases (length updated) (length original)).
  - left. by apply drop_ge.
  - right. apply drop_ge. lia.
Qed.

(** ** C6: the changes of a rewrite are in the lookup table *)

Lemma diff_dict_dict set_iter m1 m2 path :
  diff_dict set_iter (TDict m1) (TDict m2) path
  = flat_map (fun k =>
                match PyDict.get k m1, PyDict.get k m2 with
                | Some v1, Some v2 => diff_dict set_iter v1 v2 (key_path path k)
                | Some v1, None => [(key_path path k, v1, TNull)]
                | None, Some v2 => [(key_path path k, TNull, v2)]
                | None, None => []
                end)
             (set_iter (list_to_set (PyDict.keys m1) ∪ list_to_set (PyDict.keys m2))).
Proof.
  change (diff_dict set_iter (TDict m1) (TDict m2) path)
    with (flat_map
            (diff_key (map (fun kv => (fst kv, diff_dict set_iter (snd kv))) m1)
                      m1 m2 path)
            (set_iter (list_to_set (PyDict.keys m1) ∪ list_to_set (PyDict.keys m2)))).
  apply flat_map_ext. intros k. unfold diff_key.
  rewrite (get_map_snd (fun kv => diff_dict set_iter (snd kv))).
  by destruct (PyDict.get k m1).
Qed.

Lemma diff_zip_prefixed set_iter prefix keys path l i c :
  Forall (fun v => forall p c, c ∈ diff_dict set_iter v (prefixed prefix keys v) p ->
                               change_of_write prefix keys v c) l ->
  c ∈ diff_zip (diff_dict set_iter) path l (map (prefixed prefix keys) l) i ->
  exists v, v ∈ l /\ change_of_write prefix keys v c.
Proof.
  intros HF. revert i. induction HF as [|v l Hv _ IH]; intros i; simpl.
  - intros H. by apply elem_of_nil in H.
  - intros H. apply elem_of_app in H as [H|H].
    + exists v. split; [apply list_elem_of_here | by eapply Hv].
    + destruct (IH _ H) as (v' & Hin & Hc). exists v'.
      split; [by apply list_elem_of_further | done].
Qed.

Lemma diff_range_empty d n mk : diff_range d n n mk = [].
Proof. unfold diff_range. by rewrite Nat.sub_diag. Qed.

Lemma diff_prefixed set_iter prefix keys t :
  forall path c,
    c ∈ diff_dict set_iter t (prefixed prefix keys t) path ->
    change_of_write prefix keys t c.
Proof.
  induction t as [|b|z|f|s|items IH|items IH] using Tree_ind; intros path c Hc.
  - by apply elem_of_nil in Hc.
  - right. simpl in Hc. destruct (negb _); [|by apply elem_of_nil in Hc].
    by apply list_elem_of_singleton in Hc as ->.
  - right. simpl in Hc. destruct (negb _); [|by apply elem_of_nil in Hc].
    by apply list_elem_of_singleton in Hc as ->.
  - right. simpl in Hc. destruct (negb _); [|by apply elem_of_nil in Hc].
    by apply list_elem_of_singleton in Hc as ->.
  - simpl in Hc. rewrite String.eqb_refl in Hc. by apply elem_of_nil in Hc.
  - change (prefixed prefix keys (TList items))
      with (TList (map (prefixed prefix keys) items)) in Hc.
    change (diff_dict set_iter (TList items) (TList (map (prefixed prefix keys) items)) path)
      with (diff_zip (diff_dict set_iter) path items (map (prefixed prefix keys) items) 0
            ++ diff_range (map (prefixed prefix keys) items) (length items)
                 (length (map (prefixed prefix keys) items))
                 (fun i v => (index_path path i, TNull, v))
            ++ diff_range items (length (map (prefixed prefix keys) items)) (length items)
                 (fun i v => (index_path path i, v, TNull))) in Hc.
    rewrite length_map, !diff_range_empty, !app_nil_r in Hc.
    destruct (diff_zip_prefixed _ _ _ _ _ _ _ IH Hc) as (v & Hin & [(s & H1 & H2 & H3)|Hn]).
    + left. exists s. split; [done|]. split; [done|]. by eapply in_writes_list.
    + by right.
  - change (prefixed prefix keys (TDict items))
      with (TDict (map (fun kv : string * Tree =>
                          (fst kv,
                           match eligible prefix keys (fst kv) (snd kv) with
                           | Some s => if startswith s prefix then snd kv
                                       else TStr (prefix +:+ s)
                           | None => prefixed prefix keys (snd kv)
                           end)) items)) in Hc.
    rewrite diff_dict_dict in Hc.
    apply list_elem_of_In, in_flat_map in Hc as (k & _ & Hc).
    apply list_elem_of_In in Hc. rewrite get_map_snd in Hc.
    destruct (PyDict.get k items) as [v|] eqn:Hget; [|by apply elem_of_nil in Hc].
    apply get_elem_of in Hget. simpl in Hc.
    rewrite Forall_forall in IH. specialize (IH _ Hget). simpl in IH.
    destruct (eligible prefix keys k v) as [s|] eqn:He.
    + assert (v = TStr s) as ->.
      { unfold eligible in He. destruct (key_in k keys); [|done].
        destruct v; try done. simpl in He. by injection He as ->. }
      destruct (startswith s prefix) eqn:Hs.
      * simpl in Hc. rewrite String.eqb_refl in Hc. by apply elem_of_nil in Hc.
      * simpl in Hc. destruct (negb _); [|by apply elem_of_nil in Hc].
        apply list_elem_of_singleton in Hc as ->. left. exists s.
        split; [done|]. split; [done|].
        eapply in_writes_dict; [done|]. rewrite He, Hs. apply list_elem_of_here.
    + destruct (IH _ _ Hc) as [(s & H1 & H2 & H3)|Hn]; [|by right].
      left. exists s. split; [done|]. split; [done|].
      eapply in_writes_dict; [done|]. by rewrite He.
Qed.

(** C6. Lookup fidelity: after a rewrite of a well-formed tree, for every
    change [(path, old, new)] the differ reports between the tree and its
    rewrite in which [old] and [new] are strings and [new] starts with the
    prefix, the lookup table maps [old] to [new]. *)
Theorem C6_lookup_fidelity (set_iter : gset string -> list string) (t : Tree)
    (prefix : string) (keys_to_prefix : list string) (lookup : Lookup)
    (path p old new : string) :
  wf t ->
  let '(updated, lookup') := recursive_prefix_lookup t prefix keys_to_prefix lookup in
  (p, TStr old, TStr new) ∈ diff_dict set_iter t updated path ->
  startswith new prefix = true ->
  PyDict.get old lookup' = Some new.
Proof.
  intros Hwf. rewrite rpl_split by done. intros Hc _.
  destruct (diff_prefixed _ _ _ _ _ _ Hc) as [(s & H1 & H2 & H3)|Hn]; [|done].
  simpl in H1, H2. injection H1 as ->. injection H2 as ->.
  by apply record_all_written.
Qed.

Lemma C6_lookup_fidelity_witness :
  PyDict.get "web"
    (snd (recursive_prefix_lookup
            (TDict [("name", TStr "web"); ("organization", TStr "infra")])
            "dev_" ["name"; "organization"] [("web", "stale")]))
  = Some "dev_web".
Proof.
  apply (C6_lookup_fidelity elements
           (TDict [("name", TStr "web"); ("organization", TStr "infra")])
           "dev_" ["name"; "organization"] [("web", "stale")] "" "name" "web" "dev_web").
  - apply wfb_wf. reflexivity.
  - vm_compute. apply list_elem_of_further, list_elem_of_here.
  - reflexivity.
Defined.

(** ** The pipeline *)

Section PipelineFacts.
Variable set_iter : gset string -> list string.
Variable fix_block_scalars : string -> string.
Variable safe_load : string -> Exception + Tree.
Variable safe_dump : (string -> ScalarNode) -> Tree -> string * option Exception.
Variable py_str : Tree -> string.

Local Abbreviation process_file :=
  (process_yaml_file set_iter fix_block_scalars safe_load safe_dump py_str).
Local Abbreviation run_one :=
  (run_file set_iter fix_block_scalars safe_load safe_dump py_str).
Local Abbreviation run_all :=
  (run_files set_iter fix_block_scalars safe_load safe_dump py_str).
Local Abbreviation run_main :=
  (main set_iter fix_block_scalars safe_load safe_dump py_str).
Local Abbreviation parsed_lookup := (lookup_of_parsed fix_block_scalars safe_load).

Lemma print_all_files lines w : files (print_all lines w) = files w.
Proof. revert w. induction lines as [|line lines IH]; intros w; simpl; [done|by rewrite IH]. Qed.

Lemma print_all_lookup lines w : lookup_table (print_all lines w) = lookup_table w.
Proof. revert w. induction lines as [|line lines IH]; intros w; simpl; [done|by rewrite IH]. Qed.

Lemma print_all_stdout lines w : stdout (print_all lines w) = stdout w ++ lines.
Proof.
  revert w. induction lines as [|line lines IH]; intros w; simpl.
  - by rewrite app_nil_r.
  - rewrite IH. simpl. by rewrite <- app_assoc.
Qed.

(** The table a call of [process_yaml_file] leaves: untouched when the
    file does not parse, the table of the rewrite when it does, whatever
    happens to the dump. *)
Lemma process_lookup filename prefix keys w :
  lookup_table (fst (process_file filename prefix keys w))
  = match files w !! filename with
    | Some raw =>
        match safe_load (fix_block_scalars raw) with
        | inr t => snd (recursive_prefix_lookup t prefix keys (lookup_table w))
        | inl _ => lookup_table w
        end
    | None => lookup_table w
    end.
Proof.
  unfold process_yaml_file.
  destruct (files w !! filename) as [raw|]; [|done].
  destruct (safe_load (fix_block_scalars raw)) as [e|t]; [done|].
  destruct (recursive_prefix_lookup t prefix keys (lookup_table w)) as [u lk].
  destruct (safe_dump _ u) as [text [e|]]; [done|].
  destruct (diff_dict set_iter t u ""); [done|].
  cbn [fst snd]. by rewrite print_all_lookup.
Qed.

Lemma process_files_other filename prefix keys w g :
  g <> filename ->
  files (fst (process_file filename prefix keys w)) !! g = files w !! g.
Proof.
  intros Hne. unfold process_yaml_file.
  destruct (files w !! filename) as [raw|]; [|done].
  destruct (safe_load (fix_block_scalars raw)) as [e|t]; [done|].
  destruct (recursive_prefix_lookup t prefix keys (lookup_table w)) as [u lk].
  destruct (safe_dump _ u) as [text [e|]].
  { simpl. by rewrite lookup_insert_ne. }
  destruct (diff_dict set_iter t u ""); cbn [fst snd].
  { simpl. by rewrite lookup_insert_ne. }
  rewrite print_all_files. simpl. by rewrite lookup_insert_ne.
Qed.

Lemma process_stdout filename prefix keys w :
  exists more, stdout (fst (process_file filename prefix keys w)) = stdout w ++ more.
Proof.
  unfold process_yaml_file.
  destruct (files w !! filename) as [raw|]; [|by exists []; rewrite app_nil_r].
  destruct (safe_load (fix_block_scalars raw)) as [e|t];
    [by exists []; rewrite app_nil_r|].
  destruct (recursive_prefix_lookup t prefix keys (lookup_table w)) as [u lk].
  destruct (safe_dump _ u) as [text [e|]]; [by exists []; rewrite app_nil_r|].
  destruct (diff_dict set_iter t u ""); cbn [fst snd].
  { simpl. eexists. by rewrite <- app_assoc. }
  rewrite print_all_stdout. simpl. eexists. by rewrite <- !app_assoc.
Qed.

Lemma run_file_lookup prefix filename keys w :
  lookup_table (run_one prefix (filename, keys) w)
  = match files w !! filename with
    | Some raw =>
        match safe_load (fix_block_scalars raw) with
        | inr t => snd (recursive_prefix_lookup t prefix keys (lookup_table w))
        | inl _ => lookup_table w
        end
    | None => lookup_table w
    end.
Proof.
  pose proof (process_lookup filename prefix keys w) as H.
  unfold run_file. destruct (files w !! filename) as [raw|] eqn:E; [|done].
  by destruct (process_file filename prefix keys w) as [w' [e|]].
Qed.

Lemma run_file_files_other prefix filename keys w g :
  g <> filename -> files (run_one prefix (filename, keys) w) !! g = files w !! g.
Proof.
  intros Hne. pose proof (process_files_other filename prefix keys w g Hne) as H.
  unfold run_file. destruct (files w !! filename) as [raw|] eqn:E; [|done].
  by destruct (process_file filename prefix keys w) as [w' [e|]].
Qed.

Lemma run_file_stdout prefix entry w :
  exists more, stdout (run_one prefix entry w) = stdout w ++ more.
Proof.
  destruct entry as [filename keys].
  destruct (process_stdout filename prefix keys w) as [more H].
  unfold run_file. destruct (files w !! filename) as [raw|] eqn:E.
  - destruct (process_file filename prefix keys w) as [w' [e|]]; simpl in *.
    + rewrite H. eexists. by rewrite <- app_assoc.
    + by exists more.
  - simpl. by eexists.
Qed.

Lemma run_files_stdout prefix entries w :
  exists more, stdout (run_all prefix entries w) = stdout w ++ more.
Proof.
  revert w. induction entries as [|entry entries IH]; intros w; simpl.
  - exists []. by rewrite app_nil_r.
  - destruct (IH (run_one prefix entry w)) as [more ->].
    destruct (run_file_stdout prefix entry w) as [more' ->].
    eexists. by rewrite <- app_assoc.
Qed.

Lemma run_files_app prefix before after w :
  run_all prefix (before ++ after) w
  = run_all prefix after (run_all prefix before w).
Proof. unfold run_files. apply fold_left_app. Qed.

Lemma run_files_cons prefix entry entries w :
  run_all prefix (entry :: entries) w
  = run_all prefix entries (run_one prefix entry w).
Proof. reflexivity. Qed.

(** With distinct file names, the table at the end of the loop holds the
    writes of every file that was found and parsed. *)
Lemma run_files_lookup prefix entries fs w :
  NoDup (map fst entries) ->
  (forall g, g ∈ map fst entries -> files w !! g = fs !! g) ->
  lookup_table (run_all prefix entries w)
  = parsed_lookup prefix entries fs (lookup_table w).
Proof.
  revert w. induction entries as [|[filename keys] entries IH]; intros w Hnd Hfs;
    [done|].
  rewrite run_files_cons. cbn [lookup_of_parsed map fst] in *.
  apply NoDup_cons in Hnd as [Hnotin Hnd].
  rewrite IH; [|done|].
  - rewrite run_file_lookup.
    rewrite <- (Hfs filename) by apply list_elem_of_here.
    destruct (files w !! filename) as [raw|]; [|done].
    by destruct (safe_load (fix_block_scalars raw)).
  - intros g Hg. rewrite run_file_files_other.
    + apply Hfs. by apply list_elem_of_further.
    + intros ->. done.
Qed.

Lemma file_key_map_nodup : NoDup (map fst file_key_map).
Proof. apply (bool_decide_unpack _). by vm_compute. Qed.

Lemma main_lookup prefix w :
  lookup_table (run_main prefix w) = parsed_lookup prefix file_key_map (files w) [].
Proof.
  unfold main. rewrite print_all_lookup.
  change (lookup_table (print ?l ?x)) with (lookup_table x).
  rewrite (run_files_lookup prefix file_key_map (files w)); [done| |done].
  apply file_key_map_nodup.
Qed.

Lemma main_stdout prefix w line :
  line ∈ stdout (run_all prefix file_key_map (fresh_table w)) ->
  line ∈ stdout (run_main prefix w).
Proof.
  intros H. unfold main. rewrite print_all_stdout.
  change (stdout (print ?l ?x)) with (stdout x ++ [l]).
  apply elem_of_app. left. apply elem_of_app. by left.
Qed.


Lemma run_files_keep_line prefix entries w line :
  line ∈ stdout w -> line ∈ stdout (run_all prefix entries w).
Proof.
  intros H. destruct (run_files_stdout prefix entries w) as [more ->].
  apply elem_of_app. by left.
Qed.

(** C8, as the code has it. The final lookup table holds the writes of
    every file that was found and parsed, whether or not its dump then
    succeeded. When a call of [process_yaml_file] on a file of
    [file_key_map] ends with an exception [e], the loop prints the failure
    line naming the file and [e] and goes on with the files after it; the
    line is in the output of the run; the table that call leaves is the
    one before it if the file did not parse, and the one of the rewrite if
    it did. *)
Theorem C8_failures_reported_lookup_of_parsed (prefix : string) (w : World) :
  lookup_table (run_main prefix w) = parsed_lookup prefix file_key_map (files w) []
  /\ forall (before after : list (string * list string)) (filename : string)
            (keys : list string) (w1 w2 : World) (e : Exception),
       file_key_map = before ++ (filename, keys) :: after ->
       w1 = run_all prefix before (fresh_table w) ->
       is_Some (files w1 !! filename) ->
       process_file filename prefix keys w1 = (w2, Some e) ->
       run_all prefix file_key_map (fresh_table w)
       = run_all prefix after (print (failure_line filename e) w2)
       /\ failure_line filename e ∈ stdout (run_main prefix w)
       /\ lookup_table w2
          = match files w1 !! filename with
            | Some raw =>
                match safe_load (fix_block_scalars raw) with
                | inr t =>
                    snd (recursive_prefix_lookup t prefix keys (lookup_table w1))
                | inl _ => lookup_table w1
                end
            | None => lookup_table w1
            end.
Proof.
  split; [apply main_lookup|].
  intros before after filename keys w1 w2 e Hsplit Hw1 [raw Hraw] Hproc.
  assert (Hrun : run_all prefix file_key_map (fresh_table w)
                 = run_all prefix after (print (failure_line filename e) w2)).
  { rewrite Hsplit, run_files_app, run_files_cons, <- Hw1.
    f_equal. unfold run_file. by rewrite Hraw, Hproc. }
  split; [done|]. split.
  - apply main_stdout. rewrite Hrun. apply run_files_keep_line.
    simpl. apply elem_of_app. right. apply list_elem_of_here.
  - pose proof (process_lookup filename prefix keys w1) as H.
    by rewrite Hproc in H.
Qed.

(** C7, at the registration the source makes. [process_yaml_file]
    registers [represent_multiline_str] with [yaml.add_representer], whose
    dumper class is left at its default [yaml.Dumper], and dumps with
    [yaml.safe_dump], whose class is [yaml.SafeDumper]: the representer of
    [str] the dump uses is the one it had before, so a run that starts
    without a representer of its own on [SafeDumper] dumps as if
    [represent_multiline_str] did not exist. For the two-line string
    [a, newline, b] the hook asks for the literal style and the dump uses
    the default style. *)
Theorem C7_hook_not_used_by_safe_dump :
  (forall y : Yaml,
      str_representer SafeDumper (add_representer_str represent_multiline_str Dumper y)
      = str_representer SafeDumper y)
  /\ (forall (filepath prefix : string) (keys : list string) (w : World),
        on_SafeDumper (yaml w) = None ->
        process_file filepath prefix keys w
        = process_yaml_file set_iter fix_block_scalars safe_load
            (fun _ => safe_dump builtin_represent_str) py_str
            filepath prefix keys w)
  /\ node_style (represent_multiline_str ("a" +:+ newline +:+ "b")) = Some "|"
  /\ node_style
       (str_representer SafeDumper
          (add_representer_str represent_multiline_str Dumper yaml_initial)
          ("a" +:+ newline +:+ "b"))
     = None.
Proof.
  split; [by intros []|]. split; [|by split].
  intros filepath prefix keys w Hy. unfold process_yaml_file.
  destruct (files w !! filepath) as [raw|]; [|done].
  destruct (safe_load (fix_block_scalars raw)) as [e|t]; [done|].
  destruct (recursive_prefix_lookup t prefix keys (lookup_table w)) as [u lk].
  unfold str_representer, add_representer_str. simpl. by rewrite Hy.
Qed.

Lemma parsed_lookup_empty_prefix entries fs lk :
  (forall raw t, safe_load raw = inr t -> wf t) ->
  parsed_lookup "" entries fs lk = lk.
Proof.
  intros Hwf. induction entries as [|[filename keys] entries IH]; simpl; [done|].
  destruct (fs !! filename) as [raw|]; [|done].
  destruct (safe_load (fix_block_scalars raw)) as [e|t] eqn:E; [done|].
  by rewrite rpl_empty_prefix by by eapply Hwf.
Qed.

End PipelineFacts.

Lemma char_in_spec c data : char_in c data = true <-> In c (list_ascii_of_string data).
Proof.
  induction data as [|a data IH]; simpl; [done|].
  rewrite orb_true_iff, IH, Ascii.eqb_eq. split; intros [H|H]; auto.
Qed.

(** The hook itself follows the policy: it asks for the literal style
    exactly for the strings that hold a newline or one of the five special
    characters, and for the default style otherwise. *)
Lemma represent_multiline_str_policy data :
  node_value (represent_multiline_str data) = data
  /\ (node_style (represent_multiline_str data) = Some "|"
      <-> exists c, In c ("010"%char :: special_chars) /\ In c (list_ascii_of_string data))
  /\ (node_style (represent_multiline_str data) = None
      <-> forall c, In c ("010"%char :: special_chars) -> ~ In c (list_ascii_of_string data)).
Proof.
  unfold represent_multiline_str.
  destruct (char_in "010"%char data || existsb (fun c => char_in c data) special_chars)
    eqn:E; simpl.
  - apply orb_true_iff in E.
    assert (Hex : exists c, In c ("010"%char :: special_chars)
                            /\ In c (list_ascii_of_string data)).
    { destruct E as [E|E].
      - exists "010"%char. split; [by left | by apply char_in_spec].
      - apply existsb_exists in E as (c & Hc & E).
        exists c. split; [by right | by apply char_in_spec]. }
    split; [done|]. split; split; try done.
    intros H. destruct Hex as (c & Hc & Hin). by destruct (H c Hc).
  - apply orb_false_iff in E as [E1 E2].
    assert (Hall : forall c, In c ("010"%char :: special_chars)
                             -> ~ In c (list_ascii_of_string data)).
    { intros c [<-|Hc] Hin; apply char_in_spec in Hin.
      - congruence.
      - assert (existsb (fun c => char_in c data) special_chars = true) by
          (apply existsb_exists; eauto).
        congruence. }
    split; [done|]. split; split; try done.
    intros (c & Hc & Hin). by destruct (Hall c Hc).
Qed.

(** ** The claims of the pipeline at concrete runs *)

Lemma C8_failures_reported_lookup_of_parsed_witness :
  failure_line "orgs.yaml" "disk full"
  ∈ stdout (main elements (fun raw => raw)
              (fun _ => inr (TDict [("name", TStr "web")]))
              (fun _ _ => ("", Some "disk full"))
              (fun _ => "")
              "dev_"
              {| files := {["orgs.yaml" := "name: web"]}; yaml := yaml_initial;
                 lookup_table := []; stdout := [] |}).
Proof.
  refine (proj1 (proj2 (proj2
    (C8_failures_reported_lookup_of_parsed elements (fun raw => raw)
       (fun _ => inr (TDict [("name", TStr "web")]))
       (fun _ _ => ("", Some "disk full"))
       (fun _ => "")
       "dev_"
       {| files := {["orgs.yaml" := "name: web"]}; yaml := yaml_initial;
          lookup_table := []; stdout := [] |})
    [] (tail file_key_map) "orgs.yaml" ["name"]
    (fresh_table {| files := {["orgs.yaml" := "name: web"]}; yaml := yaml_initial;
                    lookup_table := []; stdout := [] |})
    {| files := {["orgs.yaml" := ""]};
       yaml := add_representer_str represent_multiline_str Dumper yaml_initial;
       lookup_table := [("web", "dev_web")]; stdout := [] |}
    "disk full" _ _ _ _))).
  - reflexivity.
  - reflexivity.
  - vm_compute. eauto.
  - vm_compute. reflexivity.
Defined.

(** C8 as the specification states it, at a run whose only file fails in
    the dump: the processing of the file ends with an exception, no file is
    processed with success, and yet the final lookup table holds the entry
    the rewrite of the failed file wrote. *)
Lemma C8_counterexample_dump_failure :
  let load := (fun _ : string => inr (TDict [("name", TStr "web")]) : Exception + Tree) in
  let dump := (fun (_ : string -> ScalarNode) (_ : Tree) => ("", Some "disk full")) in
  let w := {| files := {["orgs.yaml" := "name: web"]}; yaml := yaml_initial;
              lookup_table := []; stdout := [] |} in
  snd (process_yaml_file elements (fun raw => raw) load dump (fun _ => "")
         "orgs.yaml" "dev_" ["name"] (fresh_table w))
  = Some "disk full"
  /\ lookup_of_processed (fun raw => raw) load dump yaml_initial "dev_" file_key_map
       (files w) []
     = []
  /\ lookup_table (main elements (fun raw => raw) load dump (fun _ => "") "dev_" w)
     = [("web", "dev_web")]
  /\ lookup_table (main elements (fun raw => raw) load dump (fun _ => "") "dev_" w)
     <> lookup_of_processed (fun raw => raw) load dump yaml_initial "dev_" file_key_map
          (files w) [].
Proof.
  cbv zeta. split; [by vm_compute|]. split; [by vm_compute|]. split; [by vm_compute|].
  vm_compute. discriminate.
Qed.

Lemma C7_hook_not_used_by_safe_dump_witness :
  let dump := (fun (r : string -> ScalarNode) (_ : Tree) =>
                 (match node_style (r ("a" +:+ newline +:+ "b")) with
                  | Some style => style
                  | None => "default"
                  end, @None Exception)) in
  let w := {| files := {["orgs.yaml" := "name: web"]}; yaml := yaml_initial;
              lookup_table := []; stdout := [] |} in
  process_yaml_file elements (fun raw => raw)
    (fun _ => inr (TDict [("name", TStr "web")])) dump (fun _ => "")
    "orgs.yaml" "dev_" ["name"] w
  = process_yaml_file elements (fun raw => raw)
      (fun _ => inr (TDict [("name", TStr "web")]))
      (fun _ => dump builtin_represent_str) (fun _ => "")
      "orgs.yaml" "dev_" ["name"] w.
Proof.
  cbv zeta.
  apply (proj1 (proj2
    (C7_hook_not_used_by_safe_dump elements (fun raw => raw)
       (fun _ => inr (TDict [("name", TStr "web")]))
       (fun (r : string -> ScalarNode) (_ : Tree) =>
          (match node_style (r ("a" +:+ newline +:+ "b")) with
           | Some style => style
           | None => "default"
           end, @None Exception))
       (fun _ => "")))).
  reflexivity.
Defined.

Example scenario2_run :
  recursive_prefix_lookup (TDict [("name", TStr "dev_web")]) "dev_" ["name"] []
  = (TDict [("name", TStr "dev_web")], []).
Proof. reflexivity. Qed.

(** * Further properties of the code *)

(** ** The rewriter, node by node *)

Lemma tree_get_str path s : path <> [] -> tree_get path (TStr s) = None.
Proof. by destruct path as [|[]]. Qed.

Lemma last_cons_nonempty {A} (x : A) (l : list A) : l <> [] -> last (x :: l) = last l.
Proof. by destruct l. Qed.

Lemma prefixed_get prefix keys path t :
  tree_get path (prefixed prefix keys t)
  = rewrite_node prefix keys path <$> tree_get path t.
Proof.
  revert t. induction path as [|[k|i] path IH]; intros t.
  - reflexivity.
  - destruct t as [| | | | | |items]; try reflexivity.
    cbn [prefixed tree_get]. rewrite get_map_snd.
    destruct (PyDict.get k items) as [v|]; [|done]. cbn [fst snd].
    destruct path as [|st path].
    + reflexivity.
    + assert (Hrn : forall n, rewrite_node prefix keys (Key k :: st :: path) n
                              = rewrite_node prefix keys (st :: path) n).
      { intros n. unfold rewrite_node. by rewrite (last_cons_nonempty (Key k)). }
      rewrite (option_fmap_ext _ _ _ Hrn).
      destruct (eligible prefix keys k v) as [s|] eqn:He; [|apply IH].
      assert (v = TStr s) as ->.
      { unfold eligible in He. destruct (key_in k keys); [|done].
        destruct v; try done. simpl in He. by injection He as ->. }
      rewrite (tree_get_str (st :: path) s) by done.
      destruct (startswith s prefix); by rewrite tree_get_str.
  - destruct t as [| | | | |items|]; try reflexivity.
    cbn [prefixed tree_get]. rewrite list_lookup_fmap.
    destruct (items !! i) as [v|]; [|done]. cbn [fmap option_fmap option_map].
    destruct path as [|st path].
    + reflexivity.
    + assert (Hrn : forall n, rewrite_node prefix keys (Idx i :: st :: path) n
                              = rewrite_node prefix keys (st :: path) n).
      { intros n. unfold rewrite_node. by rewrite (last_cons_nonempty (Idx i)). }
      rewrite (option_fmap_ext _ _ _ Hrn). apply IH.
Qed.

Lemma prefixed_leaf prefix keys n : is_leaf n -> prefixed prefix keys n = n.
Proof. by destruct n. Qed.

(** X1. The rewriter changes nothing but its targets: in the tree it
    returns for a well-formed tree, every leaf that is not a string without
    the prefix directly under a key of [keys_to_prefix] is where it was,
    with the value it had; and where the input has no node, the output has
    none. *)
Theorem X1_rewriter_frame (t : Tree) (prefix : string) (keys_to_prefix : list string)
    (lookup : Lookup) (path : list Step) :
  wf t ->
  match tree_get path t with
  | Some node =>
      is_leaf node ->
      is_target prefix keys_to_prefix path node = false ->
      tree_get path (fst (recursive_prefix_lookup t prefix keys_to_prefix lookup))
      = Some node
  | None =>
      tree_get path (fst (recursive_prefix_lookup t prefix keys_to_prefix lookup)) = None
  end.
Proof.
  intros Hwf. rewrite rpl_tree by done. rewrite prefixed_get.
  destruct (tree_get path t) as [node|]; [|done].
  intros Hleaf Htarget. simpl. f_equal.
  unfold rewrite_node, is_target in *.
  destruct (last path) as [[k|i]|]; try by apply prefixed_leaf.
  unfold eligible. destruct (key_in k keys_to_prefix) eqn:Hk; [|by apply prefixed_leaf].
  destruct node; try done. simpl in *. by destruct (startswith s prefix).
Qed.

Lemma X1_rewriter_frame_witness :
  tree_get [Key "hosts"; Idx 1; Key "port"]
    (fst (recursive_prefix_lookup
            (TDict [("name", TStr "web");
                    ("hosts", TList [TDict [("name", TStr "a")];
                                     TDict [("name", TStr "b"); ("port", TInt 22)]])])
            "dev_" ["name"] []))
  = Some (TInt 22).
Proof.
  apply (X1_rewriter_frame
           (TDict [("name", TStr "web");
                   ("hosts", TList [TDict [("name", TStr "a")];
                                    TDict [("name", TStr "b"); ("port", TInt 22)]])])
           "dev_" ["name"] [] [Key "hosts"; Idx 1; Key "port"]).
  - apply wfb_wf. reflexivity.
  - exact I.
  - reflexivity.
Defined.

(** X2. After a rewrite of a well-formed tree, every string directly
    under a key of [keys_to_prefix], anywhere in the returned tree, starts
    with the prefix. *)
Theorem X2_eligible_strings_prefixed (t : Tree) (prefix : string)
    (keys_to_prefix : list string) (lookup : Lookup) (path : list Step)
    (k s : string) :
  wf t ->
  key_in k keys_to_prefix = true ->
  tree_get (path ++ [Key k])
    (fst (recursive_prefix_lookup t prefix keys_to_prefix lookup)) = Some (TStr s) ->
  startswith s prefix = true.
Proof.
  intros Hwf Hk. rewrite rpl_tree by done. rewrite prefixed_get.
  destruct (tree_get (path ++ [Key k]) t) as [node|]; [|done].
  simpl. unfold rewrite_node. rewrite last_snoc. unfold eligible. rewrite Hk.
  destruct (is_str node) as [s0|] eqn:Hs.
  - destruct (startswith s0 prefix) eqn:E.
    + intros [= ->]. simpl in Hs. congruence.
    + intros [= <-]. apply startswith_app.
  - intros [= H]. apply (prefixed_not_str prefix keys_to_prefix) in Hs.
    by rewrite H in Hs.
Qed.

Lemma X2_eligible_strings_prefixed_witness :
  startswith "dev_b" "dev_" = true.
Proof.
  apply (X2_eligible_strings_prefixed
           (TDict [("hosts", TList [TDict [("name", TStr "dev_a")];
                                    TDict [("name", TStr "b")]])])
           "dev_" ["name"] [] [Key "hosts"; Idx 1] "name" "dev_b").
  - apply wfb_wf. reflexivity.
  - reflexivity.
  - reflexivity.
Defined.

(** ** The rewriter with no keys, and the lookup table as a dict *)

Lemma prefixed_no_keys prefix t : prefixed prefix [] t = t.
Proof.
  induction t as [| | | | |items IH|items IH] using Tree_ind; try done.
  - simpl. f_equal. induction IH as [|v items Hv _ IH]; simpl; [done|].
    by rewrite Hv, IH.
  - simpl. f_equal. induction IH as [|[k v] items Hv _ IH]; simpl; [done|].
    rewrite IH. simpl in Hv. by rewrite Hv.
Qed.

Lemma writes_no_keys prefix t : writes prefix [] t = [].
Proof.
  induction t as [| | | | |items IH|items IH] using Tree_ind; try done.
  - simpl. induction IH as [|v items Hv _ IH]; simpl; [done|]. by rewrite Hv, IH.
  - simpl. induction IH as [|[k v] items Hv _ IH]; simpl; [done|].
    rewrite IH. simpl in Hv. by rewrite Hv.
Qed.

(** X3. With an empty list of keys the rewriter returns a well-formed
    tree as it is, whatever the prefix, and leaves the lookup table as it
    is. *)
Theorem X3_no_keys_identity (t : Tree) (prefix : string) (lookup : Lookup) :
  wf t -> recursive_prefix_lookup t prefix [] lookup = (t, lookup).
Proof.
  intros Hwf. rewrite rpl_split by done. by rewrite prefixed_no_keys, writes_no_keys.
Qed.

Lemma X3_no_keys_identity_witness :
  recursive_prefix_lookup (TDict [("name", TStr "web"); ("tags", TList [TStr "a"])])
    "dev_" [] [("x", "dev_x")]
  = (TDict [("name", TStr "web"); ("tags", TList [TStr "a"])], [("x", "dev_x")]).
Proof.
  apply (X3_no_keys_identity
           (TDict [("name", TStr "web"); ("tags", TList [TStr "a"])])
           "dev_" [("x", "dev_x")]).
  apply wfb_wf. reflexivity.
Defined.

Lemma get_None_keys {V} (k : string) (d : list (string * V)) :
  PyDict.get k d = None <-> k ∉ map fst d.
Proof.
  induction d as [|[k' v] d IH]; simpl.
  - split; [intros _; apply not_elem_of_nil | done].
  - rewrite not_elem_of_cons. destruct (String.eqb_spec k k') as [->|Hne].
    + split; [done | by intros [? _]].
    + rewrite IH. tauto.
Qed.

Lemma set_keys {V} (k : string) (v : V) (d : list (string * V)) :
  map fst (PyDict.set k v d)
  = match PyDict.get k d with
    | Some _ => map fst d
    | None => map fst d ++ [k]
    end.
Proof.
  induction d as [|[k' v'] d IH]; simpl; [done|].
  destruct (String.eqb_spec k k') as [->|Hne]; simpl; [done|].
  rewrite IH. by destruct (PyDict.get k d).
Qed.

Lemma set_keys_prefix {V} (k : string) (v : V) (d : list (string * V)) :
  map fst d `prefix_of` map fst (PyDict.set k v d).
Proof.
  rewrite set_keys. destruct (PyDict.get k d); [done|]. by apply prefix_app_r.
Qed.

Lemma set_keys_nodup {V} (k : string) (v : V) (d : list (string * V)) :
  NoDup (map fst d) -> NoDup (map fst (PyDict.set k v d)).
Proof.
  intros Hnd. rewrite set_keys. destruct (PyDict.get k d) eqn:E; [done|].
  apply NoDup_app. split; [done|]. split; [|apply NoDup_singleton].
  intros x Hx Hk. apply list_elem_of_singleton in Hk as ->.
  by apply get_None_keys in E.
Qed.

Lemma record_all_keys_prefix prefix olds lk :
  map fst lk `prefix_of` map fst (record_all prefix olds lk).
Proof.
  revert lk. induction olds as [|o olds IH]; intros lk; simpl; [done|].
  etrans; [apply set_keys_prefix | apply IH].
Qed.

Lemma record_all_keys_nodup prefix olds lk :
  NoDup (map fst lk) -> NoDup (map fst (record_all prefix olds lk)).
Proof.
  revert lk. induction olds as [|o olds IH]; intros lk H; simpl; [done|].
  by apply IH, set_keys_nodup.
Qed.

Lemma record_all_entry prefix olds lk s v :
  PyDict.get s lk = Some v ->
  PyDict.get s (record_all prefix olds lk) = Some v
  \/ PyDict.get s (record_all prefix olds lk) = Some (prefix +:+ s).
Proof.
  intros H. destruct (decide (s ∈ olds)) as [Hin|Hnot].
  - right. by apply record_all_written.
  - left. by rewrite record_all_other.
Qed.

(** X4. A rewrite only appends to the lookup table: the old values already
    in the table stay where they are, in their order, before the ones the
    rewrite adds; and an entry of the table either keeps its new value or
    is overwritten with the prefix followed by its old value. This holds
    for every tree. *)
Theorem X4_lookup_append_only (t : Tree) (prefix : string)
    (keys_to_prefix : list string) (lookup : Lookup) :
  let lookup' := snd (recursive_prefix_lookup t prefix keys_to_prefix lookup) in
  PyDict.keys lookup `prefix_of` PyDict.keys lookup'
  /\ forall old new : string,
       PyDict.get old lookup = Some new ->
       PyDict.get old lookup' = Some new
       \/ PyDict.get old lookup' = Some (prefix +:+ old).
Proof.
  simpl. rewrite rpl_lookup. split.
  - apply record_all_keys_prefix.
  - intros old new. apply record_all_entry.
Qed.

(** X5. A rewrite keeps the lookup table a dict: if no old value occurs
    twice in the table before, none occurs twice after, so the table has
    one line per old value when it is printed. *)
Theorem X5_lookup_keys_distinct (t : Tree) (prefix : string)
    (keys_to_prefix : list string) (lookup : Lookup) :
  NoDup (PyDict.keys lookup) ->
  NoDup (PyDict.keys (snd (recursive_prefix_lookup t prefix keys_to_prefix lookup))).
Proof. intros H. rewrite rpl_lookup. by apply record_all_keys_nodup. Qed.

Lemma X5_lookup_keys_distinct_witness :
  NoDup (PyDict.keys
           (snd (recursive_prefix_lookup
                   (TList [TDict [("name", TStr "web")]; TDict [("name", TStr "web")];
                           TDict [("name", TStr "db")]])
                   "dev_" ["name"] [("web", "old_web")]))).
Proof.
  apply (X5_lookup_keys_distinct
           (TList [TDict [("name", TStr "web")]; TDict [("name", TStr "web")];
                   TDict [("name", TStr "db")]])
           "dev_" ["name"] [("web", "old_web")]).
  apply (bool_decide_unpack _). by vm_compute.
Defined.

(** ** The differ *)

Lemma flat_map_eq_nil {A B} (f : A -> list B) (l : list A) :
  flat_map f l = [] <-> forall x, x ∈ l -> f x = [].
Proof.
  induction l as [|x l IH]; simpl.
  - split; [intros _ x Hx; by apply elem_of_nil in Hx | done].
  - split.
    + intros H. apply app_eq_nil in H as [H1 H2]. intros y Hy.
      apply elem_of_cons in Hy as [->|Hy]; [done|]. by apply IH.
    + intros H. rewrite (H x) by apply list_elem_of_here. simpl.
      apply IH. intros y Hy. apply H. by apply list_elem_of_further.
Qed.

Lemma get_of_elem {V} (k : string) (v : V) (d : list (string * V)) :
  NoDup (map fst d) -> (k, v) ∈ d -> PyDict.get k d = Some v.
Proof.
  induction d as [|[k' v'] d IH]; simpl; intros Hnd Hin.
  - by apply elem_of_nil in Hin.
  - apply NoDup_cons in Hnd as [Hk Hnd].
    apply elem_of_cons in Hin as [[= -> ->]|Hin].
    + by rewrite String.eqb_refl.
    + destruct (String.eqb_spec k k') as [->|_]; [|by apply IH].
      exfalso. apply Hk. apply list_elem_of_fmap. by exists (k', v).
Qed.

Lemma SFeqb_refl f : f <> S754_nan -> SFeqb f f = true.
Proof.
  intros Hf. unfold SFeqb, SFcompare. destruct f as [s|s| |s m e]; try done.
  - by destruct s.
  - rewrite Z.compare_refl, Pos.compare_cont_refl. by destruct s.
Qed.

Lemma diff_leaf_self set_iter t path :
  is_leaf t -> (diff_dict set_iter t t path = [] <-> has_nan t = false).
Proof.
  destruct t as [|b|z|f|s| |]; try done; intros _; simpl.
  - destruct b; by rewrite ?Z.eqb_refl.
  - by rewrite Z.eqb_refl.
  - destruct f as [s|s| |s m e]; try by rewrite SFeqb_refl.
    split; discriminate.
  - by rewrite String.eqb_refl.
Qed.

Lemma diff_zip_self rec path l i (Q : Tree -> Prop) :
  Forall (fun x => forall p, rec x x p = [] <-> Q x) l ->
  (diff_zip rec path l l i = [] <-> Forall Q l).
Proof.
  intros HF. revert i. induction HF as [|x l Hx _ IH]; intros i; simpl.
  - split; [by constructor | done].
  - split.
    + intros H. apply app_eq_nil in H as [H1 H2].
      constructor; [by apply (Hx (index_path path i)) | by apply (IH (S i))].
    + intros H. inversion H as [|? ? H1 H2]; subst.
      apply app_nil. split; [by apply Hx | by apply IH].
Qed.

Lemma existsb_false_Forall {A} (f : A -> bool) (l : list A) :
  existsb f l = false <-> Forall (fun x => f x = false) l.
Proof.
  induction l as [|x l IH]; simpl.
  - split; [by constructor | done].
  - rewrite orb_false_iff, IH. split.
    + intros [? ?]. by constructor.
    + intros H. by inversion H.
Qed.

Lemma diff_self set_iter t :
  (forall (S : gset string) k, k ∈ S -> k ∈ set_iter S) ->
  wf t ->
  forall path, diff_dict set_iter t t path = [] <-> has_nan t = false.
Proof.
  intros Hcover.
  induction t as [| | | | |items IH|items IH] using Tree_ind; intros Hwf path;
    try (by apply diff_leaf_self).
  - change (diff_dict set_iter (TList items) (TList items) path)
      with (diff_zip (diff_dict set_iter) path items items 0
            ++ diff_range items (length items) (length items)
                 (fun i v => (index_path path i, TNull, v))
            ++ diff_range items (length items) (length items)
                 (fun i v => (index_path path i, v, TNull))).
    rewrite !diff_range_empty, !app_nil_r.
    apply wf_list in Hwf.
    rewrite (diff_zip_self (diff_dict set_iter) path items 0 (fun x => has_nan x = false)).
    + simpl. by rewrite existsb_false_Forall.
    + rewrite Forall_forall in IH, Hwf |- *. intros x Hx p. by apply IH, Hwf.
  - apply wf_dict in Hwf as [Hnd Hwf].
    rewrite diff_dict_dict, flat_map_eq_nil. simpl. rewrite existsb_false_Forall.
    rewrite Forall_forall in IH, Hwf. rewrite Forall_forall. split.
    + intros H [k v] Hkv. simpl.
      assert (Hget : PyDict.get k items = Some v) by by apply get_of_elem.
      assert (Hk : k ∈ set_iter (list_to_set (PyDict.keys items)
                                 ∪ list_to_set (PyDict.keys items))).
      { apply Hcover, elem_of_union_l, elem_of_list_to_set.
        apply list_elem_of_fmap. by exists (k, v). }
      specialize (H k Hk). rewrite Hget in H.
      by apply (IH (k, v) Hkv (Hwf (k, v) Hkv) (key_path path k)).
    + intros H k _. destruct (PyDict.get k items) as [v|] eqn:Hget; [|done].
      apply get_elem_of in Hget.
      by apply (IH (k, v) Hget (Hwf (k, v) Hget) (key_path path k)), (H (k, v)).
Qed.

(** X6. [diff_dict] of a well-formed tree against itself is empty exactly
    when the tree holds no float that is not a number: [nan != nan] is true
    in Python, so a document with a [.nan] always shows a change. The
    iteration over the key set is only required to visit every key. *)
Theorem X6_diff_self_empty_iff_no_nan (set_iter : gset string -> list string)
    (t : Tree) (path : string) :
  (forall (S : gset string) k, k ∈ S -> k ∈ set_iter S) ->
  wf t ->
  (diff_dict set_iter t t path = [] <-> has_nan t = false).
Proof. intros Hcover Hwf. by apply diff_self. Qed.

Lemma elements_cover (S : gset string) (k : string) : k ∈ S -> k ∈ elements S.
Proof. apply elem_of_elements. Qed.

Lemma X6_diff_self_empty_iff_no_nan_witness :
  (diff_dict elements
     (TDict [("name", TStr "web"); ("ratio", TList [TFloat S754_nan; TInt 1])])
     (TDict [("name", TStr "web"); ("ratio", TList [TFloat S754_nan; TInt 1])]) ""
   = []
   <-> has_nan (TDict [("name", TStr "web"); ("ratio", TList [TFloat S754_nan; TInt 1])])
       = false)
  /\ diff_dict elements
       (TDict [("name", TStr "web"); ("ratio", TList [TFloat S754_nan; TInt 1])])
       (TDict [("name", TStr "web"); ("ratio", TList [TFloat S754_nan; TInt 1])]) ""
     = [("ratio[0]", TFloat S754_nan, TFloat S754_nan)].
Proof.
  split; [|by vm_compute].
  apply (X6_diff_self_empty_iff_no_nan elements
           (TDict [("name", TStr "web"); ("ratio", TList [TFloat S754_nan; TInt 1])]) "").
  - apply elements_cover.
  - apply wfb_wf. reflexivity.
Defined.

(** X7. [diff_dict] on two mappings, whatever the order of the iteration
    as long as it visits every key: a key only the original has gives the
    removal [(path.key, value, None)], a key only the updated mapping has
    gives the addition [(path.key, None, value)], and for a key both have
    every change between the two values, found under [path.key], is a
    change of the mappings. *)
Theorem X7_diff_mapping_keys (set_iter : gset string -> list string)
    (m1 m2 : list (string * Tree)) (path k : string) :
  (forall (S : gset string) k, k ∈ S -> k ∈ set_iter S) ->
  match PyDict.get k m1, PyDict.get k m2 with
  | Some v1, Some v2 =>
      forall c, c ∈ diff_dict set_iter v1 v2 (key_path path k) ->
                c ∈ diff_dict set_iter (TDict m1) (TDict m2) path
  | Some v1, None =>
      (key_path path k, v1, TNull) ∈ diff_dict set_iter (TDict m1) (TDict m2) path
  | None, Some v2 =>
      (key_path path k, TNull, v2) ∈ diff_dict set_iter (TDict m1) (TDict m2) path
  | None, None => True
  end.
Proof.
  intros Hcover. rewrite diff_dict_dict.
  assert (Hin : forall c,
    c ∈ match PyDict.get k m1, PyDict.get k m2 with
        | Some v1, Some v2 => diff_dict set_iter v1 v2 (key_path path k)
        | Some v1, None => [(key_path path k, v1, TNull)]
        | None, Some v2 => [(key_path path k, TNull, v2)]
        | None, None => []
        end ->
    k ∈ set_iter (list_to_set (PyDict.keys m1) ∪ list_to_set (PyDict.keys m2)) ->
    c ∈ flat_map
          (fun k => match PyDict.get k m1, PyDict.get k m2 with
                    | Some v1, Some v2 => diff_dict set_iter v1 v2 (key_path path k)
                    | Some v1, None => [(key_path path k, v1, TNull)]
                    | None, Some v2 => [(key_path path k, TNull, v2)]
                    | None, None => []
                    end)
          (set_iter (list_to_set (PyDict.keys m1) ∪ list_to_set (PyDict.keys m2)))).
  { intros c Hc Hk. apply list_elem_of_In, in_flat_map. exists k.
    split; by apply list_elem_of_In. }
  destruct (PyDict.get k m1) as [v1|] eqn:E1, (PyDict.get k m2) as [v2|] eqn:E2;
    try done.
  - intros c Hc. apply Hin; [done|].
    apply Hcover, elem_of_union_l, elem_of_list_to_set, list_elem_of_fmap.
    exists (k, v1). split; [done | by apply get_elem_of].
  - apply Hin; [apply list_elem_of_here|].
    apply Hcover, elem_of_union_l, elem_of_list_to_set, list_elem_of_fmap.
    exists (k, v1). split; [done | by apply get_elem_of].
  - apply Hin; [apply list_elem_of_here|].
    apply Hcover, elem_of_union_r, elem_of_list_to_set, list_elem_of_fmap.
    exists (k, v2). split; [done | by apply get_elem_of].
Qed.

Lemma X7_diff_mapping_keys_witness :
  ("spec.port", TInt 80, TNull)
  ∈ diff_dict elements (TDict [("name", TStr "a"); ("port", TInt 80)])
                       (TDict [("name", TStr "a"); ("ports", TList [TInt 80])]) "spec".
Proof.
  apply (X7_diff_mapping_keys elements
           [("name", TStr "a"); ("port", TInt 80)]
           [("name", TStr "a"); ("ports", TList [TInt 80])] "spec" "port").
  apply elements_cover.
Defined.

(** ** The paths of the changes *)

Lemma prefix_refl s : String.prefix s s = true.
Proof.
  induction s as [|c s IH]; simpl; [done|].
  destruct (ascii_dec c c); [apply IH | done].
Qed.

Lemma prefix_trans a b c :
  String.prefix a b = true -> String.prefix b c = true -> String.prefix a c = true.
Proof.
  revert b c. induction a as [|x a IH]; intros b c Hab Hbc; [by destruct c|].
  destruct b as [|y b]; destruct c as [|z c]; simpl in *; try done.
  destruct (ascii_dec x y) as [->|]; [|done].
  destruct (ascii_dec y z) as [->|]; [|done].
  by apply (IH b).
Qed.

Lemma startswith_key_path path k : startswith (key_path path k) path = true.
Proof.
  destruct path as [|c path]; [apply startswith_empty|].
  unfold key_path. apply startswith_app.
Qed.

Lemma startswith_index_path path i : startswith (index_path path i) path = true.
Proof. unfold index_path. apply startswith_app. Qed.

Lemma diff_zip_paths rec path l1 l2 i c :
  Forall (fun v1 => forall v2 p c, c ∈ rec v1 v2 p -> startswith (fst (fst c)) p = true) l1 ->
  c ∈ diff_zip rec path l1 l2 i ->
  startswith (fst (fst c)) path = true.
Proof.
  intros HF. revert l2 i. induction HF as [|v1 l1 Hv _ IH]; intros [|v2 l2] i; simpl;
    try (intros H; by apply elem_of_nil in H).
  intros H. apply elem_of_app in H as [H|H]; [|by eapply IH].
  eapply prefix_trans; [apply startswith_index_path | by eapply Hv].
Qed.

Lemma diff_paths set_iter d1 :
  forall d2 path c,
    c ∈ diff_dict set_iter d1 d2 path -> startswith (fst (fst c)) path = true.
Proof.
  assert (Helse : forall d1 d2 path c,
             c ∈ (if negb (py_eq d1 d2) then [(path, d1, d2)] else []) ->
             startswith (fst (fst c)) path = true).
  { intros a b path c H. destruct (negb _); [|by apply elem_of_nil in H].
    apply list_elem_of_singleton in H as ->. apply prefix_refl. }
  induction d1 as [| | | | |l1 IH|m1 IH] using Tree_ind; intros d2 path c Hc;
    try (destruct d2; by eapply Helse).
  - destruct d2 as [| | | | |l2|]; try by eapply Helse.
    change (diff_dict set_iter (TList l1) (TList l2) path)
      with (diff_zip (diff_dict set_iter) path l1 l2 0
            ++ diff_range l2 (length l1) (length l2)
                 (fun i v => (index_path path i, TNull, v))
            ++ diff_range l1 (length l2) (length l1)
                 (fun i v => (index_path path i, v, TNull))) in Hc.
    apply elem_of_app in Hc as [Hc|Hc]; [by eapply diff_zip_paths|].
    apply elem_of_app in Hc as [Hc|Hc];
      apply list_elem_of_In, in_flat_map in Hc as (i & _ & Hc).
    + destruct (l2 !! i); [|done]. destruct Hc as [<-|[]]. apply startswith_index_path.
    + destruct (l1 !! i); [|done]. destruct Hc as [<-|[]]. apply startswith_index_path.
  - destruct d2 as [| | | | | |m2]; try by eapply Helse.
    rewrite diff_dict_dict in Hc.
    apply list_elem_of_In, in_flat_map in Hc as (k & _ & Hc). apply list_elem_of_In in Hc.
    destruct (PyDict.get k m1) as [v1|] eqn:E1, (PyDict.get k m2) as [v2|] eqn:E2.
    + rewrite Forall_forall in IH. apply get_elem_of in E1.
      eapply prefix_trans; [apply startswith_key_path|].
      by apply (IH (k, v1) E1 v2 (key_path path k) c).
    + apply list_elem_of_singleton in Hc as ->. apply startswith_key_path.
    + apply list_elem_of_singleton in Hc as ->. apply startswith_key_path.
    + by apply elem_of_nil in Hc.
Qed.

(** X9. Every change [diff_dict] returns lies under the path it was
    given: the path of the change starts with that path, for any two
    values. *)
Theorem X9_diff_paths_under_path (set_iter : gset string -> list string)
    (d1 d2 : Tree) (path p : string) (old new : Tree) :
  (p, old, new) ∈ diff_dict set_iter d1 d2 path ->
  startswith p path = true.
Proof. intros H. by apply (diff_paths set_iter d1 d2 path (p, old, new)). Qed.

Lemma X9_diff_paths_under_path_witness :
  startswith "jobs[1].name" "jobs" = true.
Proof.
  apply (X9_diff_paths_under_path elements
           (TList [TDict [("name", TStr "a")]; TDict [("name", TStr "b")]])
           (TList [TDict [("name", TStr "a")]; TDict [("name", TStr "dev_b")]])
           "jobs" "jobs[1].name" (TStr "b") (TStr "dev_b")).
  vm_compute. apply list_elem_of_here.
Defined.

(** ** No change reported, no change made *)

Lemma diff_zip_prefixed_nil set_iter prefix keys path l i :
  Forall (fun v => forall p, diff_dict set_iter v (prefixed prefix keys v) p = [] ->
                             prefixed prefix keys v = v) l ->
  diff_zip (diff_dict set_iter) path l (map (prefixed prefix keys) l) i = [] ->
  map (prefixed prefix keys) l = l.
Proof.
  intros HF. revert i. induction HF as [|v l Hv _ IH]; intros i; simpl; [done|].
  intros H. apply app_nil in H as [H1 H2].
  by rewrite (Hv _ H1), (IH _ H2).
Qed.

Lemma startswith_false_neq prefix s :
  startswith s prefix = false -> String.eqb s (prefix +:+ s) = false.
Proof.
  intros H. apply String.eqb_neq. intros Heq.
  assert (Hlen : String.length (prefix +:+ s) = String.length prefix + String.length s).
  { clear. induction prefix as [|c p IH]; simpl; [done|]. by rewrite IH. }
  rewrite <- Heq in Hlen. destruct prefix as [|c p]; simpl in Hlen; [|lia].
  by rewrite startswith_empty in H.
Qed.

Lemma diff_prefixed_nil set_iter prefix keys t :
  (forall (S : gset string) k, k ∈ S -> k ∈ set_iter S) ->
  wf t ->
  forall path, diff_dict set_iter t (prefixed prefix keys t) path = [] ->
               prefixed prefix keys t = t.
Proof.
  intros Hcover.
  induction t as [| | | | |items IH|items IH] using Tree_ind; intros Hwf path Hd;
    try reflexivity.
  - change (prefixed prefix keys (TList items))
      with (TList (map (prefixed prefix keys) items)) in *.
    change (diff_dict set_iter (TList items) (TList (map (prefixed prefix keys) items)) path)
      with (diff_zip (diff_dict set_iter) path items (map (prefixed prefix keys) items) 0
            ++ diff_range (map (prefixed prefix keys) items) (length items)
                 (length (map (prefixed prefix keys) items))
                 (fun i v => (index_path path i, TNull, v))
            ++ diff_range items (length (map (prefixed prefix keys) items)) (length items)
                 (fun i v => (index_path path i, v, TNull))) in Hd.
    rewrite length_map, !diff_range_empty, !app_nil_r in Hd.
    f_equal. apply (diff_zip_prefixed_nil set_iter prefix keys path items 0); [|done].
    apply wf_list in Hwf. rewrite Forall_forall in IH, Hwf |- *.
    intros v Hv p. by apply IH, Hwf.
  - apply wf_dict in Hwf as [Hnd Hwf].
    change (prefixed prefix keys (TDict items))
      with (TDict (map (fun kv : string * Tree =>
                          (fst kv,
                           match eligible prefix keys (fst kv) (snd kv) with
                           | Some s => if startswith s prefix then snd kv
                                       else TStr (prefix +:+ s)
                           | None => prefixed prefix keys (snd kv)
                           end)) items)) in *.
    rewrite diff_dict_dict in Hd. rewrite flat_map_eq_nil in Hd.
    f_equal. rewrite <- (map_id items) at 2. apply map_ext_in.
    intros [k v] Hkv. apply list_elem_of_In in Hkv. simpl. f_equal.
    assert (Hget : PyDict.get k items = Some v) by by apply get_of_elem.
    assert (Hk : k ∈ set_iter
                   (list_to_set (PyDict.keys items)
                    ∪ list_to_set
                        (PyDict.keys
                           (map (fun kv : string * Tree =>
                                   (fst kv,
                                    match eligible prefix keys (fst kv) (snd kv) with
                                    | Some s => if startswith s prefix then snd kv
                                                else TStr (prefix +:+ s)
                                    | None => prefixed prefix keys (snd kv)
                                    end)) items)))).
    { apply Hcover, elem_of_union_l, elem_of_list_to_set, list_elem_of_fmap.
      by exists (k, v). }
    specialize (Hd k Hk). rewrite get_map_snd, Hget in Hd. simpl in Hd.
    rewrite Forall_forall in IH, Hwf.
    destruct (eligible prefix keys k v) as [s|] eqn:He.
    + assert (v = TStr s) as ->.
      { unfold eligible in He. destruct (key_in k keys); [|done].
        destruct v; try done. simpl in He. by injection He as ->. }
      destruct (startswith s prefix) eqn:Hs; [done|].
      simpl in Hd. by rewrite startswith_false_neq in Hd.
    + by apply (IH (k, v) Hkv (Hwf (k, v) Hkv) (key_path path k)).
Qed.

(** X10. For a well-formed tree without a float that is not a number,
    [diff_dict] between the tree and its rewrite is empty exactly when the
    rewrite returned the tree unchanged: the report of a file says that
    nothing changed if and only if nothing did. The iteration over the key
    set is only required to visit every key. *)
Theorem X10_no_change_iff_unchanged (set_iter : gset string -> list string)
    (t : Tree) (prefix : string) (keys_to_prefix : list string) (lookup : Lookup)
    (path : string) :
  (forall (S : gset string) k, k ∈ S -> k ∈ set_iter S) ->
  wf t ->
  has_nan t = false ->
  (diff_dict set_iter t (fst (recursive_prefix_lookup t prefix keys_to_prefix lookup)) path
   = []
   <-> fst (recursive_prefix_lookup t prefix keys_to_prefix lookup) = t).
Proof.
  intros Hcover Hwf Hnan. rewrite rpl_tree by done. split.
  - by apply diff_prefixed_nil.
  - intros ->. by apply diff_self.
Qed.

Lemma X10_no_change_iff_unchanged_witness :
  diff_dict elements
    (TDict [("name", TStr "dev_web"); ("ports", TList [TInt 80])])
    (fst (recursive_prefix_lookup
            (TDict [("name", TStr "dev_web"); ("ports", TList [TInt 80])])
            "dev_" ["name"] [])) ""
  = []
  <-> fst (recursive_prefix_lookup
             (TDict [("name", TStr "dev_web"); ("ports", TList [TInt 80])])
             "dev_" ["name"] [])
      = TDict [("name", TStr "dev_web"); ("ports", TList [TInt 80])].
Proof.
  apply (X10_no_change_iff_unchanged elements
           (TDict [("name", TStr "dev_web"); ("ports", TList [TInt 80])])
           "dev_" ["name"] [] "").
  - apply elements_cover.
  - apply wfb_wf. reflexivity.
  - reflexivity.
Defined.

(** ** The report of a rewrite is exact *)

Lemma is_target_nonempty prefix keys steps n :
  is_target prefix keys steps n = true -> steps <> [].
Proof. by destruct steps. Qed.

Lemma is_target_cons prefix keys st steps n :
  steps <> [] -> is_target prefix keys (st :: steps) n = is_target prefix keys steps n.
Proof. intros H. unfold is_target. by rewrite last_cons_nonempty. Qed.

Lemma diff_zip_elem rec path l1 l2 i c :
  c ∈ diff_zip rec path l1 l2 i <->
  exists j v1 v2, l1 !! j = Some v1 /\ l2 !! j = Some v2
                  /\ c ∈ rec v1 v2 (index_path path (i + j)).
Proof.
  revert l2 i. induction l1 as [|x l1 IH]; intros l2 i.
  - simpl. split; [intros H; by apply elem_of_nil in H|].
    by intros (j & v1 & v2 & H & _).
  - destruct l2 as [|y l2]; simpl.
    + split; [intros H; by apply elem_of_nil in H|].
      by intros (j & v1 & v2 & _ & H & _).
    + rewrite elem_of_app, IH. split.
      * intros [H|(j & v1 & v2 & H1 & H2 & H3)].
        -- exists 0, x, y. by rewrite Nat.add_0_r.
        -- exists (S j), v1, v2. by rewrite Nat.add_succ_r.
      * intros ([|j] & v1 & v2 & H1 & H2 & H3); simpl in *.
        -- left. injection H1 as <-. injection H2 as <-. by rewrite Nat.add_0_r in H3.
        -- right. exists j, v1, v2. by rewrite Nat.add_succ_r in H3.
Qed.

Section Exact.
Variable set_iter : gset string -> list string.
Variable prefix : string.
Variable keys : list string.

Lemma diff_prefixed_sound t :
  has_nan t = false ->
  forall path c,
    c ∈ diff_dict set_iter t (prefixed prefix keys t) path ->
    reported prefix keys t path c.
Proof.
  induction t as [|b|z|f|s|items IH|items IH] using Tree_ind; intros Hnan path c Hc.
  - by apply elem_of_nil in Hc.
  - exfalso. pose proof (proj2 (diff_leaf_self set_iter (TBool b) path I) Hnan) as H.
    change (prefixed prefix keys (TBool b)) with (TBool b) in Hc.
    rewrite H in Hc. by apply elem_of_nil in Hc.
  - exfalso. pose proof (proj2 (diff_leaf_self set_iter (TInt z) path I) Hnan) as H.
    change (prefixed prefix keys (TInt z)) with (TInt z) in Hc.
    rewrite H in Hc. by apply elem_of_nil in Hc.
  - exfalso. pose proof (proj2 (diff_leaf_self set_iter (TFloat f) path I) Hnan) as H.
    change (prefixed prefix keys (TFloat f)) with (TFloat f) in Hc.
    rewrite H in Hc. by apply elem_of_nil in Hc.
  - simpl in Hc. rewrite String.eqb_refl in Hc. by apply elem_of_nil in Hc.
  - change (prefixed prefix keys (TList items))
      with (TList (map (prefixed prefix keys) items)) in Hc.
    change (diff_dict set_iter (TList items) (TList (map (prefixed prefix keys) items)) path)
      with (diff_zip (diff_dict set_iter) path items (map (prefixed prefix keys) items) 0
            ++ diff_range (map (prefixed prefix keys) items) (length items)
                 (length (map (prefixed prefix keys) items))
                 (fun i v => (index_path path i, TNull, v))
            ++ diff_range items (length (map (prefixed prefix keys) items)) (length items)
                 (fun i v => (index_path path i, v, TNull))) in Hc.
    rewrite length_map, !diff_range_empty, !app_nil_r in Hc.
    apply diff_zip_elem in Hc as (j & v1 & v2 & H1 & H2 & Hc). simpl in Hc.
    rewrite list_lookup_fmap, H1 in H2. injection H2 as <-.
    simpl in Hnan. rewrite existsb_false_Forall in Hnan.
    rewrite Forall_forall in IH, Hnan.
    assert (Hin : v1 ∈ items) by by eapply list_elem_of_lookup_2.
    destruct (IH v1 Hin (Hnan v1 Hin) _ _ Hc) as (steps & s & -> & Hget & Ht).
    exists (Idx j :: steps), s. split; [done|]. split.
    + simpl. by rewrite H1.
    + rewrite is_target_cons; [done | by eapply is_target_nonempty].
  - change (prefixed prefix keys (TDict items))
      with (TDict (map (fun kv : string * Tree =>
                          (fst kv,
                           match eligible prefix keys (fst kv) (snd kv) with
                           | Some s => if startswith s prefix then snd kv
                                       else TStr (prefix +:+ s)
                           | None => prefixed prefix keys (snd kv)
                           end)) items)) in Hc.
    rewrite diff_dict_dict in Hc.
    apply list_elem_of_In, in_flat_map in Hc as (k & _ & Hc).
    apply list_elem_of_In in Hc. rewrite get_map_snd in Hc.
    destruct (PyDict.get k items) as [v|] eqn:Hget; [|by apply elem_of_nil in Hc].
    pose proof (get_elem_of _ _ _ Hget) as Hin. simpl in Hc.
    simpl in Hnan. rewrite existsb_false_Forall in Hnan.
    rewrite Forall_forall in IH, Hnan.
    specialize (IH _ Hin). specialize (Hnan _ Hin). simpl in IH, Hnan.
    destruct (eligible prefix keys k v) as [s|] eqn:He.
    + assert (v = TStr s /\ key_in k keys = true) as [-> Hk].
      { unfold eligible in He. destruct (key_in k keys); [|done].
        destruct v; try done. simpl in He. by injection He as ->. }
      destruct (startswith s prefix) eqn:Hs.
      * simpl in Hc. rewrite String.eqb_refl in Hc. by apply elem_of_nil in Hc.
      * simpl in Hc. rewrite startswith_false_neq in Hc by done.
        apply list_elem_of_singleton in Hc as ->.
        exists [Key k], s. split; [done|]. split.
        -- simpl. by rewrite Hget.
        -- unfold is_target. simpl. by rewrite Hk, Hs.
    + destruct (IH Hnan _ _ Hc) as (steps & s & -> & Hg & Ht).
      exists (Key k :: steps), s. split; [done|]. split.
      * simpl. by rewrite Hget.
      * rewrite is_target_cons; [done | by eapply is_target_nonempty].
Qed.

Lemma diff_prefixed_complete steps :
  (forall (S : gset string) k, k ∈ S -> k ∈ set_iter S) ->
  forall t path s,
    tree_get steps t = Some (TStr s) ->
    is_target prefix keys steps (TStr s) = true ->
    (path_from path steps, TStr s, TStr (prefix +:+ s))
    ∈ diff_dict set_iter t (prefixed prefix keys t) path.
Proof.
  intros Hcover. induction steps as [|[k|i] steps IH]; intros t path s Hget Ht.
  - done.
  - destruct t as [| | | | | |items]; try done. simpl in Hget.
    destruct (PyDict.get k items) as [v|] eqn:Hk; [|done].
    change (prefixed prefix keys (TDict items))
      with (TDict (map (fun kv : string * Tree =>
                          (fst kv,
                           match eligible prefix keys (fst kv) (snd kv) with
                           | Some s => if startswith s prefix then snd kv
                                       else TStr (prefix +:+ s)
                           | None => prefixed prefix keys (snd kv)
                           end)) items)).
    rewrite diff_dict_dict. apply list_elem_of_In, in_flat_map. exists k. split.
    { apply list_elem_of_In, Hcover, elem_of_union_l, elem_of_list_to_set.
      apply list_elem_of_fmap. exists (k, v). split; [done | by apply get_elem_of]. }
    apply list_elem_of_In. rewrite get_map_snd, Hk. simpl.
    destruct steps as [|st steps].
    + simpl in Hget. injection Hget as ->. unfold is_target in Ht. simpl in Ht.
      apply andb_prop in Ht as [Hkey Hs]. apply negb_true_iff in Hs.
      unfold eligible. rewrite Hkey. simpl. rewrite Hs. simpl.
      rewrite startswith_false_neq by done. apply list_elem_of_here.
    + rewrite is_target_cons in Ht by done.
      assert (He : eligible prefix keys k v = None).
      { unfold eligible. destruct (key_in k keys); [|done].
        destruct v; try done. by rewrite tree_get_str in Hget. }
      rewrite He. by apply IH.
  - destruct t as [| | | | |items|]; try done. simpl in Hget.
    destruct (items !! i) as [v|] eqn:Hi; [|done].
    destruct steps as [|st steps]; [done|].
    rewrite is_target_cons in Ht by done.
    change (prefixed prefix keys (TList items))
      with (TList (map (prefixed prefix keys) items)).
    change (diff_dict set_iter (TList items) (TList (map (prefixed prefix keys) items)) path)
      with (diff_zip (diff_dict set_iter) path items (map (prefixed prefix keys) items) 0
            ++ diff_range (map (prefixed prefix keys) items) (length items)
                 (length (map (prefixed prefix keys) items))
                 (fun i v => (index_path path i, TNull, v))
            ++ diff_range items (length (map (prefixed prefix keys) items)) (length items)
                 (fun i v => (index_path path i, v, TNull))).
    apply elem_of_app. left. apply diff_zip_elem.
    exists i, v, (prefixed prefix keys v). split; [done|]. split.
    + by rewrite list_lookup_fmap, Hi.
    + simpl. by apply IH.
Qed.

End Exact.

(** X11. The change report of a rewrite is exact. For a well-formed tree
    without a float that is not a number, and an iteration over key sets
    that visits every key, the changes [diff_dict] returns between the tree
    and its rewrite are exactly the triples [(path, s, prefix + s)] for the
    strings [s] without the prefix that sit directly under a key of
    [keys_to_prefix], each with the path string of its position: nothing
    else is reported and no such string is missed. *)
Theorem X11_report_exact (set_iter : gset string -> list string) (t : Tree)
    (prefix : string) (keys_to_prefix : list string) (lookup : Lookup) (c : Change) :
  (forall (S : gset string) k, k ∈ S -> k ∈ set_iter S) ->
  wf t ->
  has_nan t = false ->
  (c ∈ diff_dict set_iter t
         (fst (recursive_prefix_lookup t prefix keys_to_prefix lookup)) ""
   <-> exists steps s,
         c = (path_from "" steps, TStr s, TStr (prefix +:+ s))
         /\ tree_get steps t = Some (TStr s)
         /\ is_target prefix keys_to_prefix steps (TStr s) = true).
Proof.
  intros Hcover Hwf Hnan. rewrite rpl_tree by done. split.
  - by apply diff_prefixed_sound.
  - intros (steps & s & -> & Hget & Ht). by apply diff_prefixed_complete.
Qed.

Lemma X11_report_exact_witness :
  ("hosts[1].name", TStr "b", TStr "dev_b")
  ∈ diff_dict elements
      (TDict [("hosts", TList [TDict [("name", TStr "dev_a")];
                               TDict [("name", TStr "b")]])])
      (fst (recursive_prefix_lookup
              (TDict [("hosts", TList [TDict [("name", TStr "dev_a")];
                                       TDict [("name", TStr "b")]])])
              "dev_" ["name"] [])) "".
Proof.
  apply (X11_report_exact elements
           (TDict [("hosts", TList [TDict [("name", TStr "dev_a")];
                                    TDict [("name", TStr "b")]])])
           "dev_" ["name"] [] ("hosts[1].name", TStr "b", TStr "dev_b")).
  - apply elements_cover.
  - apply wfb_wf. reflexivity.
  - reflexivity.
  - exists [Key "hosts"; Idx 1; Key "name"], "b". repeat split.
Defined.

(** ** [fix_block_scalars] *)

Section BlockScalarsFacts.
Import BlockScalars.

Lemma group2_not_space c : is_group2 c = negb (is_space c).
Proof.
  unfold is_group2. destruct (N.eqb_spec c nl) as [->|_]; [done|].
  simpl. reflexivity.
Qed.

Lemma sub_from_filter mark pending text :
  filter (fun c => negb (is_space c)) (sub_from mark pending text)
  = filter (fun c => negb (is_space c)) text.
Proof.
  revert pending. induction text as [|c text IH]; intros pending; [done|].
  cbn [sub_from]. rewrite group2_not_space.
  destruct pending, (is_space c) eqn:E; cbn [negb];
    rewrite ?filter_cons, ?E; cbn [negb];
    try (change (is_space nl) with true); try (change (is_space sp) with true);
    cbn [negb]; rewrite ?E; cbn [negb]; by rewrite IH.
Qed.

Lemma sub_from_sublist mark pending text :
  text `sublist_of` sub_from mark pending text.
Proof.
  revert pending. induction text as [|c text IH]; intros pending; [done|].
  cbn [sub_from].
  destruct pending; [destruct (is_space c); [|destruct (is_group2 c)]|];
    repeat first [apply sublist_skip | apply sublist_cons]; apply IH.
Qed.

(** X12. [fix_block_scalars] only inserts whitespace: the text it was
    given can be read in its result by skipping characters, and the
    characters that are not whitespace are the same, in the same order,
    before and after. *)
Theorem X12_fix_inserts_only_whitespace (text : list N) :
  text `sublist_of` fix_block_scalars text
  /\ filter (fun c => negb (is_space c)) (fix_block_scalars text)
     = filter (fun c => negb (is_space c)) text.
Proof.
  unfold fix_block_scalars, sub_block. split.
  - etrans; apply sub_from_sublist.
  - by rewrite !sub_from_filter.
Qed.

Lemma sub_from_no_mark mark text :
  mark ∉ text -> sub_from mark false text = text.
Proof.
  induction text as [|c text IH]; intros H; [done|].
  apply not_elem_of_cons in H as [Hne H]. cbn [sub_from].
  destruct (N.eqb_spec c mark) as [->|_]; [done|]. by rewrite IH.
Qed.

(** X13. A text that holds neither a vertical bar nor a greater-than sign
    comes back from [fix_block_scalars] as it is. *)
Theorem X13_fix_without_markers (text : list N) :
  bar ∉ text -> gt ∉ text -> fix_block_scalars text = text.
Proof.
  intros Hbar Hgt. unfold fix_block_scalars, sub_block.
  by rewrite (sub_from_no_mark bar), (sub_from_no_mark gt).
Qed.

Lemma X13_fix_without_markers_witness :
  fix_block_scalars [110; 97; 109; 101; 58; 32; 119; 101; 98; 10]%N
  = [110; 97; 109; 101; 58; 32; 119; 101; 98; 10]%N.
Proof.
  apply X13_fix_without_markers; by apply (bool_decide_unpack _).
Defined.

Lemma sub_from_pending_spaces mark ws text :
  Forall (fun c => is_space c = true) ws ->
  sub_from mark true (ws ++ text) = ws ++ sub_from mark true text.
Proof.
  induction 1 as [|c ws Hc _ IH]; [done|]. simpl. by rewrite Hc, IH.
Qed.

Lemma sub_from_idle_prefix mark pre text :
  mark ∉ pre ->
  sub_from mark false (pre ++ text) = pre ++ sub_from mark false text.
Proof.
  induction pre as [|c pre IH]; intros H; [done|].
  apply not_elem_of_cons in H as [Hne H]. simpl.
  destruct (N.eqb_spec c mark) as [->|_]; [done|]. by rewrite IH.
Qed.

(** X14. One substitution at its first match. When the first occurrence of
    the mark is followed by whitespace [ws], possibly empty and possibly
    holding line breaks, and then by a character [x] that is not
    whitespace, the substitution puts a newline and two spaces before [x]
    and goes on behind [x]: a block scalar that is already well formed, its
    text on the line after the bar, gets one more line break. *)
Theorem X14_sub_block_first_match (mark x : N) (pre ws rest : list N) :
  mark ∉ pre ->
  Forall (fun c => is_space c = true) ws ->
  is_space x = false ->
  sub_block mark (pre ++ mark :: ws ++ x :: rest)
  = pre ++ mark :: ws ++ nl :: sp :: sp :: x :: sub_block mark rest.
Proof.
  intros Hpre Hws Hx. unfold sub_block.
  rewrite sub_from_idle_prefix by done. f_equal. cbn [sub_from].
  rewrite N.eqb_refl. f_equal. rewrite sub_from_pending_spaces by done. f_equal.
  cbn [sub_from]. by rewrite Hx, group2_not_space, Hx.
Qed.

Lemma X14_sub_block_first_match_witness :
  sub_block bar ([97; 58; 32] ++ bar :: [10; 32; 32] ++ 98 :: [10])%N
  = ([97; 58; 32] ++ bar :: [10; 32; 32] ++ nl :: sp :: sp :: 98 :: sub_block bar [10])%N.
Proof.
  apply (X14_sub_block_first_match bar 98 [97; 58; 32] [10; 32; 32] [10])%N.
  - by apply (bool_decide_unpack _).
  - repeat constructor.
  - reflexivity.
Defined.






End BlockScalarsFacts.

(** ** The files, the output and the table after a run *)

Section PipelineMore.
Variable set_iter : gset string -> list string.
Variable fix_block_scalars : string -> string.
Variable safe_load : string -> Exception + Tree.
Variable safe_dump : (string -> ScalarNode) -> Tree -> string * option Exception.
Variable py_str : Tree -> string.

Local Abbreviation process_file :=
  (process_yaml_file set_iter fix_block_scalars safe_load safe_dump py_str).
Local Abbreviation run_one :=
  (run_file set_iter fix_block_scalars safe_load safe_dump py_str).
Local Abbreviation run_all :=
  (run_files set_iter fix_block_scalars safe_load safe_dump py_str).
Local Abbreviation run_main :=
  (main set_iter fix_block_scalars safe_load safe_dump py_str).

Local Abbreviation after_file := (file_after fix_block_scalars safe_load safe_dump).

Hypothesis load_wf : forall raw t, safe_load raw = inr t -> wf t.

Lemma process_yaml_safe filename prefix keys w :
  str_representer SafeDumper (yaml (fst (process_file filename prefix keys w)))
  = str_representer SafeDumper (yaml w).
Proof.
  unfold process_yaml_file.
  destruct (files w !! filename) as [raw|]; [|done].
  destruct (safe_load (fix_block_scalars raw)) as [e|t]; [done|].
  destruct (recursive_prefix_lookup t prefix keys (lookup_table w)) as [u lk].
  destruct (safe_dump _ u) as [text [e|]]; [by destruct (yaml w)|].
  destruct (diff_dict set_iter t u ""); cbn [fst snd]; [by destruct (yaml w)|].
  assert (Hy : forall lines x, yaml (print_all lines x) = yaml x).
  { intros lines. induction lines as [|ln lines IH]; intros x; simpl; [done|].
    by rewrite IH. }
  rewrite Hy. by destruct (yaml w).
Qed.

Lemma process_file_self filename prefix keys w :
  files (fst (process_file filename prefix keys w)) !! filename
  = after_file prefix keys (yaml w) (files w !! filename).
Proof.
  unfold process_yaml_file, file_after.
  destruct (files w !! filename) as [raw|] eqn:Hraw; [|done].
  destruct (safe_load (fix_block_scalars raw)) as [e|t] eqn:Hload; [done|].
  pose proof (load_wf _ _ Hload) as Hwf.
  rewrite (rpl_tree t prefix keys []) by done.
  rewrite (rpl_split t prefix keys (lookup_table w)) by done.
  assert (Hs : str_representer SafeDumper
                 (add_representer_str represent_multiline_str Dumper (yaml w))
               = str_representer SafeDumper (yaml w)) by by destruct (yaml w).
  rewrite Hs.
  destruct (safe_dump _ (prefixed prefix keys t)) as [text [e|]].
  { simpl. by rewrite lookup_insert_eq. }
  destruct (diff_dict set_iter t (prefixed prefix keys t) ""); cbn [fst snd].
  { simpl. by rewrite lookup_insert_eq. }
  rewrite print_all_files. simpl. by rewrite lookup_insert_eq.
Qed.

Lemma run_one_self prefix filename keys w :
  files (run_one prefix (filename, keys) w) !! filename
  = after_file prefix keys (yaml w) (files w !! filename).
Proof.
  pose proof (process_file_self filename prefix keys w) as H.
  unfold run_file. destruct (files w !! filename) as [raw|] eqn:E; [|simpl; by rewrite E].
  by destruct (process_file filename prefix keys w) as [w' [e|]].
Qed.

Lemma run_one_safe prefix filename keys w :
  str_representer SafeDumper (yaml (run_one prefix (filename, keys) w))
  = str_representer SafeDumper (yaml w).
Proof.
  pose proof (process_yaml_safe filename prefix keys w) as H.
  unfold run_file. destruct (files w !! filename) as [raw|] eqn:E; [|done].
  by destruct (process_file filename prefix keys w) as [w' [e|]].
Qed.

Lemma after_file_safe prefix keys y y' content :
  str_representer SafeDumper y = str_representer SafeDumper y' ->
  after_file prefix keys y content = after_file prefix keys y' content.
Proof. intros H. unfold file_after. by rewrite H. Qed.

Lemma run_all_files prefix entries w g :
  NoDup (map fst entries) ->
  files (run_all prefix entries w) !! g
  = match PyDict.get g entries with
    | Some keys => after_file prefix keys (yaml w) (files w !! g)
    | None => files w !! g
    end.
Proof.
  revert w. induction entries as [|[filename keys] entries IH]; intros w Hnd; [done|].
  cbn [map fst] in Hnd. apply NoDup_cons in Hnd as [Hnotin Hnd].
  rewrite (run_files_cons set_iter fix_block_scalars safe_load safe_dump py_str).
  rewrite IH by done. cbn [PyDict.get].
  destruct (String.eqb_spec g filename) as [->|Hne].
  - apply get_None_keys in Hnotin. rewrite Hnotin. apply run_one_self.
  - rewrite (run_file_files_other set_iter fix_block_scalars safe_load safe_dump py_str)
      by done.
    destruct (PyDict.get g entries) as [keys'|]; [|done].
    apply after_file_safe, run_one_safe.
Qed.

(** X16. The files after a run of the resilient variant, when the parser
    returns well-formed trees. A file that is not named in [file_key_map],
    or that did not exist, is as before: the run creates and deletes
    nothing. A named file whose content does not parse keeps its content. A
    named file that parses holds the text that reached the stream in the
    dump of its rewritten tree, also when the dump raised: the file is
    opened for writing before the dump runs, so a failed dump leaves a
    truncated file. *)
Theorem X16_files_after_run (prefix : string) (w : World) (g : string) :
  files (run_main prefix w) !! g
  = match PyDict.get g file_key_map with
    | Some keys => after_file prefix keys (yaml w) (files w !! g)
    | None => files w !! g
    end.
Proof.
  unfold main. rewrite print_all_files.
  change (files (print ?l ?x)) with (files x).
  rewrite run_all_files by apply file_key_map_nodup. done.
Qed.

(** C10, as the code has it. With the empty prefix the rewriter returns a
    well-formed tree as it is and leaves the lookup table as it is, for
    every list of keys. A run with the empty prefix, on documents that
    parse to well-formed trees, therefore ends with the empty lookup table
    and hands every document to the dump as it was parsed; but it is not
    idle on the files: a file of [file_key_map] that exists and parses is
    overwritten with the text the dump wrote for the tree it parsed to. A
    file that does not parse, was not found or is not named stays as it
    was. *)
Theorem C10_empty_prefix_rewrites_files_only :
  (forall (t : Tree) (keys_to_prefix : list string) (lookup : Lookup),
      wf t -> recursive_prefix_lookup t "" keys_to_prefix lookup = (t, lookup))
  /\ (forall w : World, lookup_table (run_main "" w) = [])
  /\ (forall (w : World) (g : string),
        files (run_main "" w) !! g
        = match PyDict.get g file_key_map with
          | Some keys =>
              match files w !! g with
              | Some raw =>
                  match safe_load (fix_block_scalars raw) with
                  | inr t =>
                      Some (fst (safe_dump (str_representer SafeDumper (yaml w)) t))
                  | inl _ => Some raw
                  end
              | None => None
              end
          | None => files w !! g
          end).
Proof.
  split; [intros t keys lookup; apply rpl_empty_prefix|]. split.
  - intros w. rewrite main_lookup. by apply parsed_lookup_empty_prefix.
  - intros w g. unfold main. rewrite print_all_files.
    change (files (print ?l ?x)) with (files x).
    rewrite run_all_files by apply file_key_map_nodup.
    change (files (fresh_table w)) with (files w).
    change (yaml (fresh_table w)) with (yaml w).
    destruct (PyDict.get g file_key_map) as [keys|]; [|done].
    unfold file_after. destruct (files w !! g) as [raw|]; [|done].
    destruct (safe_load (fix_block_scalars raw)) as [e|t] eqn:Hload; [done|].
    by rewrite rpl_empty_prefix by by eapply load_wf.
Qed.

End PipelineMore.

Lemma C10_empty_prefix_rewrites_files_only_witness :
  recursive_prefix_lookup (TDict [("name", TStr "web"); ("tags", TList [TStr "a"])])
    "" ["name"] [("x", "y")]
  = (TDict [("name", TStr "web"); ("tags", TList [TStr "a"])], [("x", "y")])
  /\ lookup_table
       (main elements (fun raw => raw) (fun _ => inr (TDict [("name", TStr "web")]))
          (fun _ _ => ("name: web", None)) (fun _ => "") ""
          {| files := {["orgs.yaml" := "{name: web}"]}; yaml := yaml_initial;
             lookup_table := [("x", "y")]; stdout := [] |})
     = [].
Proof.
  split.
  - apply (proj1 (C10_empty_prefix_rewrites_files_only elements (fun raw => raw)
                    (fun _ => inr (TDict [("name", TStr "web")]))
                    (fun _ _ => ("name: web", None)) (fun _ => "")
                    ltac:(intros raw t [= <-]; apply wfb_wf; reflexivity))).
    apply wfb_wf. reflexivity.
  - apply (proj1 (proj2 (C10_empty_prefix_rewrites_files_only elements (fun raw => raw)
                    (fun _ => inr (TDict [("name", TStr "web")]))
                    (fun _ _ => ("name: web", None)) (fun _ => "")
                    ltac:(intros raw t [= <-]; apply wfb_wf; reflexivity)))).
Defined.

(** C10 as the specification states it, at a run with the empty prefix:
    the rewriter returns the document as it was parsed and the lookup table
    stays empty, and yet the file does not hold what it held: the run wrote
    the text of the dump over it. *)
Lemma C10_counterexample_file_rewritten :
  let load := (fun _ : string => inr (TDict [("name", TStr "web")]) : Exception + Tree) in
  let dump := (fun (_ : string -> ScalarNode) (_ : Tree) =>
                 ("name: web" +:+ newline, @None Exception)) in
  let w := {| files := {["orgs.yaml" := "{name: web}"]}; yaml := yaml_initial;
              lookup_table := []; stdout := [] |} in
  recursive_prefix_lookup (TDict [("name", TStr "web")]) "" ["name"] []
  = (TDict [("name", TStr "web")], [])
  /\ lookup_table (main elements (fun raw => raw) load dump (fun _ => "") "" w) = []
  /\ files w !! "orgs.yaml" = Some "{name: web}"
  /\ files (main elements (fun raw => raw) load dump (fun _ => "") "" w) !! "orgs.yaml"
     = Some ("name: web" +:+ newline)
  /\ files (main elements (fun raw => raw) load dump (fun _ => "") "" w) <> files w.
Proof.
  cbv zeta. split; [reflexivity|]. split; [by vm_compute|]. split; [by vm_compute|].
  split; [by vm_compute|].
  intros H. apply (f_equal (fun m : gmap string string => m !! "orgs.yaml")) in H.
  vm_compute in H. discriminate.
Qed.

Lemma X16_files_after_run_witness :
  files (main elements (fun raw => raw) (fun _ => inr (TDict [("name", TStr "web")]))
           (fun _ _ => ("", Some "disk full")) (fun _ => "") "dev_"
           {| files := {["orgs.yaml" := "name: web"]}; yaml := yaml_initial;
              lookup_table := []; stdout := [] |})
  !! "orgs.yaml"
  = Some "".
Proof.
  apply (X16_files_after_run elements (fun raw => raw)
           (fun _ => inr (TDict [("name", TStr "web")]))
           (fun _ _ => ("", Some "disk full")) (fun _ => "")).
  intros raw t [= <-]. apply wfb_wf. reflexivity.
Defined.

Section RunOutput.
Variable set_iter : gset string -> list string.
Variable fix_block_scalars : string -> string.
Variable safe_load : string -> Exception + Tree.
Variable safe_dump : (string -> ScalarNode) -> Tree -> string * option Exception.
Variable py_str : Tree -> string.

Local Abbreviation run_one :=
  (run_file set_iter fix_block_scalars safe_load safe_dump py_str).
Local Abbreviation run_all :=
  (run_files set_iter fix_block_scalars safe_load safe_dump py_str).
Local Abbreviation run_main :=
  (main set_iter fix_block_scalars safe_load safe_dump py_str).

Lemma run_all_files_other prefix entries w g :
  g ∉ map fst entries -> files (run_all prefix entries w) !! g = files w !! g.
Proof.
  revert w. induction entries as [|[filename keys] entries IH]; intros w Hg; [done|].
  cbn [map fst] in Hg. apply not_elem_of_cons in Hg as [Hne Hg].
  rewrite (run_files_cons set_iter fix_block_scalars safe_load safe_dump py_str).
  rewrite IH by done.
  by apply (run_file_files_other set_iter fix_block_scalars safe_load safe_dump py_str).
Qed.

(** X17. A file of [file_key_map] that does not exist is skipped: the
    output of the run holds the line that says so, and the file still does
    not exist after the run. *)
Theorem X17_missing_file_skipped (prefix : string) (w : World)
    (filename : string) (keys : list string) :
  (filename, keys) ∈ file_key_map ->
  files w !! filename = None ->
  ("⚠️ Skipping " +:+ filename +:+ " (not found)") ∈ stdout (run_main prefix w)
  /\ files (run_main prefix w) !! filename = None.
Proof.
  intros Hin Hnone.
  apply list_elem_of_split in Hin as (before & after & Hsplit).
  pose proof file_key_map_nodup as Hnd. rewrite Hsplit in Hnd.
  rewrite map_app in Hnd. cbn [map fst] in Hnd.
  apply NoDup_app in Hnd as (_ & Hdis & Hnd2).
  apply NoDup_cons in Hnd2 as [Hafter _].
  assert (Hbefore : filename ∉ map fst before).
  { intros H. apply (Hdis _ H). apply list_elem_of_here. }
  assert (Hturn : files (run_all prefix before (fresh_table w)) !! filename = None).
  { by rewrite run_all_files_other. }
  assert (Hrun : run_all prefix file_key_map (fresh_table w)
                 = run_all prefix after
                     (print ("⚠️ Skipping " +:+ filename +:+ " (not found)")
                        (run_all prefix before (fresh_table w)))).
  { rewrite Hsplit.
    rewrite (run_files_app set_iter fix_block_scalars safe_load safe_dump py_str).
    rewrite (run_files_cons set_iter fix_block_scalars safe_load safe_dump py_str).
    f_equal. unfold run_file. by rewrite Hturn. }
  split.
  - apply main_stdout. rewrite Hrun. apply run_files_keep_line.
    simpl. apply elem_of_app. right. apply list_elem_of_here.
  - unfold main. rewrite print_all_files.
    change (files (print ?l ?x)) with (files x).
    rewrite Hrun. by rewrite run_all_files_other.
Qed.

Lemma lookup_of_parsed_table prefix entries fs lk :
  NoDup (PyDict.keys lk) /\ lookup_inv prefix lk ->
  NoDup (PyDict.keys (lookup_of_parsed fix_block_scalars safe_load prefix entries fs lk))
  /\ lookup_inv prefix (lookup_of_parsed fix_block_scalars safe_load prefix entries fs lk).
Proof.
  revert lk. induction entries as [|[filename keys] entries IH]; intros lk H; [done|].
  cbn [lookup_of_parsed].
  destruct (fs !! filename) as [raw|]; [|by apply IH].
  destruct (safe_load (fix_block_scalars raw)) as [e|t]; [by apply IH|].
  apply IH. destruct H as [H1 H2]. split.
  - rewrite rpl_lookup. by apply record_all_keys_nodup.
  - by apply rpl_lookup_inv.
Qed.

(** X20. The lookup table at the end of a run, and its print. No old
    value occurs twice in the table; every entry maps an old value that
    does not start with the prefix to the prefix followed by that value;
    and the output of the run ends with the heading of the table and one
    line [old -> new] for each entry, in the order of the table. *)
Theorem X20_final_table (prefix : string) (w : World) :
  NoDup (PyDict.keys (lookup_table (run_main prefix w)))
  /\ lookup_inv prefix (lookup_table (run_main prefix w))
  /\ exists earlier,
       stdout (run_main prefix w)
       = earlier
         ++ (newline +:+ "Lookup table (old -> new values):")
         :: map (fun kv => "  " +:+ fst kv +:+ " -> " +:+ snd kv)
                (lookup_table (run_main prefix w)).
Proof.
  rewrite main_lookup.
  destruct (lookup_of_parsed_table prefix file_key_map (files w) []) as [H1 H2].
  { split; [apply NoDup_nil_2 | by intros ? ? ?]. }
  split; [done|]. split; [done|].
  rewrite <- (main_lookup set_iter fix_block_scalars safe_load safe_dump py_str).
  unfold main at 1. rewrite print_all_stdout.
  change (stdout (print ?l ?x)) with (stdout x ++ [l]).
  exists (stdout (run_all prefix file_key_map (fresh_table w))).
  rewrite <- app_assoc. cbn [app]. do 3 f_equal.
  unfold main. by rewrite print_all_lookup.
Qed.

End RunOutput.

Lemma X17_missing_file_skipped_witness :
  ("⚠️ Skipping " +:+ "teams.yaml" +:+ " (not found)")
  ∈ stdout (main elements (fun raw => raw) (fun _ => inr (TDict [("name", TStr "web")]))
              (fun _ _ => ("name: dev_web", None)) (fun _ => "") "dev_"
              {| files := {["orgs.yaml" := "name: web"]}; yaml := yaml_initial;
                 lookup_table := []; stdout := [] |})
  /\ files (main elements (fun raw => raw) (fun _ => inr (TDict [("name", TStr "web")]))
              (fun _ _ => ("name: dev_web", None)) (fun _ => "") "dev_"
              {| files := {["orgs.yaml" := "name: web"]}; yaml := yaml_initial;
                 lookup_table := []; stdout := [] |})
     !! "teams.yaml" = None.
Proof.
  apply (X17_missing_file_skipped elements (fun raw => raw)
           (fun _ => inr (TDict [("name", TStr "web")]))
           (fun _ _ => ("name: dev_web", None)) (fun _ => "") "dev_"
           {| files := {["orgs.yaml" := "name: web"]}; yaml := yaml_initial;
              lookup_table := []; stdout := [] |}
           "teams.yaml" ["name"; "organization"]).
  - by apply (bool_decide_unpack _).
  - reflexivity.
Defined.

(** ** The strict variant *)

Section StrictFacts.
Variable set_iter : gset string -> list string.
Variable safe_load : string -> Exception + Tree.
Variable safe_dump : (string -> ScalarNode) -> Tree -> string * option Exception.
Variable py_str : Tree -> string.

Local Abbreviation strict_process :=
  (process_yaml_file_strict set_iter safe_load safe_dump py_str).
Local Abbreviation strict_run :=
  (run_files_strict set_iter safe_load safe_dump py_str).
Local Abbreviation strict_main := (main_strict set_iter safe_load safe_dump py_str).

Lemma strict_process_files_other filename prefix keys w g :
  g <> filename ->
  files (fst (strict_process filename prefix keys w)) !! g = files w !! g.
Proof.
  intros Hne. unfold process_yaml_file_strict.
  by apply (process_files_other set_iter (fun raw => raw) safe_load safe_dump py_str).
Qed.

(** The loop of the strict variant, as long as nothing is raised, leaves
    the files it does not name as they were. *)
Lemma strict_run_files_other prefix entries w w' g :
  strict_run prefix entries w = (w', None) ->
  g ∉ map fst entries ->
  files w' !! g = files w !! g.
Proof.
  revert w. induction entries as [|[filename keys] entries IH]; intros w H Hg.
  - by injection H as <-.
  - cbn [map fst] in Hg. apply not_elem_of_cons in Hg as [Hne Hg].
    cbn [run_files_strict] in H.
    destruct (files w !! filename) as [raw|].
    + pose proof (strict_process_files_other filename prefix keys w g Hne) as Ho.
      destruct (strict_process filename prefix keys w) as [w1 [e|]]; [done|].
      simpl in Ho. rewrite <- Ho. by apply IH.
    + by rewrite (IH _ H Hg).
Qed.

Lemma strict_run_aborts prefix entries w w' e :
  strict_run prefix entries w = (w', Some e) ->
  exists before filename keys after w1,
    entries = before ++ (filename, keys) :: after
    /\ strict_run prefix before w = (w1, None)
    /\ is_Some (files w1 !! filename)
    /\ strict_process filename prefix keys w1 = (w', Some e).
Proof.
  revert w. induction entries as [|[filename keys] entries IH]; intros w H; [done|].
  cbn [run_files_strict] in H.
  destruct (files w !! filename) as [raw|] eqn:Hraw.
  - destruct (strict_process filename prefix keys w) as [w1 [e1|]] eqn:Hp.
    + injection H as <- <-. exists [], filename, keys, entries, w.
      split; [done|]. split; [done|]. split; [by eexists | done].
    + destruct (IH _ H) as (before & f & ks & after & w2 & -> & Hrun & Hsome & Hproc).
      exists ((filename, keys) :: before), f, ks, after, w2.
      split; [done|]. split; [|done].
      cbn [run_files_strict]. by rewrite Hraw, Hp.
  - destruct (IH _ H) as (before & f & ks & after & w2 & -> & Hrun & Hsome & Hproc).
    exists ((filename, keys) :: before), f, ks, after, w2.
    split; [done|]. split; [|done].
    cbn [run_files_strict]. by rewrite Hraw.
Qed.

(** X19. When the strict variant ends with an exception [e], it stopped at
    a file of [file_key_map] that exists: the files before it were
    processed or skipped without an exception, the call of
    [process_yaml_file] on it raised [e], the world returned is the one
    that call left (nothing is printed after it, the lookup table
    neither), and the files named after it are as they were before the
    run. *)
Theorem X19_strict_stops_at_first_failure (prefix : string) (w w' : World)
    (e : Exception) :
  strict_main prefix w = (w', Some e) ->
  exists before filename keys after w1,
    file_key_map = before ++ (filename, keys) :: after
    /\ strict_run prefix before (fresh_table w) = (w1, None)
    /\ is_Some (files w1 !! filename)
    /\ strict_process filename prefix keys w1 = (w', Some e)
    /\ (forall g, g ∈ map fst after -> files w' !! g = files w !! g).
Proof.
  unfold main_strict. intros H.
  destruct (strict_run prefix file_key_map (fresh_table w)) as [w1 [e1|]] eqn:Hrun;
    [|done].
  injection H as -> ->.
  apply strict_run_aborts in Hrun
    as (before & filename & keys & after & w2 & Hsplit & Hbefore & Hsome & Hproc).
  exists before, filename, keys, after, w2.
  split; [done|]. split; [done|]. split; [done|]. split; [done|].
  pose proof file_key_map_nodup as Hnd. rewrite Hsplit in Hnd.
  rewrite map_app in Hnd. cbn [map fst] in Hnd.
  apply NoDup_app in Hnd as (_ & Hdis & Hnd2).
  apply NoDup_cons in Hnd2 as [Hafter _].
  intros g Hg.
  assert (g <> filename) by (intros ->; done).
  assert (g ∉ map fst before).
  { intros Hb. apply (Hdis _ Hb). by apply list_elem_of_further. }
  pose proof (strict_process_files_other filename prefix keys w2 g) as Hother.
  rewrite Hproc in Hother. simpl in Hother. rewrite Hother by done.
  by rewrite (strict_run_files_other prefix before (fresh_table w) w2 g).
Qed.

End StrictFacts.

Lemma X19_strict_stops_at_first_failure_witness :
  exists before filename keys after w1,
    file_key_map = before ++ (filename, keys) :: after
    /\ run_files_strict elements (fun _ => inl "bad yaml")
         (fun _ _ => ("", None)) (fun _ => "") "dev_" before
         (fresh_table {| files := {["teams.yaml" := "name: ["]}; yaml := yaml_initial;
                         lookup_table := []; stdout := [] |})
       = (w1, None)
    /\ is_Some (files w1 !! filename)
    /\ process_yaml_file_strict elements (fun _ => inl "bad yaml")
         (fun _ _ => ("", None)) (fun _ => "") filename "dev_" keys w1
       = (fst (main_strict elements (fun _ => inl "bad yaml")
                 (fun _ _ => ("", None)) (fun _ => "") "dev_"
                 {| files := {["teams.yaml" := "name: ["]}; yaml := yaml_initial;
                    lookup_table := []; stdout := [] |}),
          Some "bad yaml")
    /\ (forall g, g ∈ map fst after ->
          files (fst (main_strict elements (fun _ => inl "bad yaml")
                        (fun _ _ => ("", None)) (fun _ => "") "dev_"
                        {| files := {["teams.yaml" := "name: ["]}; yaml := yaml_initial;
                           lookup_table := []; stdout := [] |})) !! g
          = ({["teams.yaml" := "name: ["]} : gmap string string) !! g).
Proof.
  refine (X19_strict_stops_at_first_failure elements (fun _ => inl "bad yaml")
           (fun _ _ => ("", None)) (fun _ => "") "dev_"
           {| files := {["teams.yaml" := "name: ["]}; yaml := yaml_initial;
              lookup_table := []; stdout := [] |}
           (fst (main_strict elements (fun _ => inl "bad yaml")
                   (fun _ _ => ("", None)) (fun _ => "") "dev_"
                   {| files := {["teams.yaml" := "name: ["]}; yaml := yaml_initial;
                      lookup_table := []; stdout := [] |}))
           "bad yaml" _).
  by vm_compute.
Defined.

(** ** The differ read backwards *)

Lemma SFcompare_antisym f g : SFcompare g f = option_map CompOpp (SFcompare f g).
Proof.
  destruct f as [s1|s1| |s1 m1 e1], g as [s2|s2| |s2 m2 e2]; simpl; try done;
    try (by destruct s1); try (by destruct s2); try (by destruct s1, s2).
  rewrite (Z.compare_antisym e1 e2).
  pose proof (Pos.compare_cont_antisym m1 m2 Eq) as Hm. simpl in Hm. rewrite <- Hm.
  destruct s1, s2; try done;
    destruct (e1 ?= e2)%Z; simpl; try done;
    by destruct (Pos.compare_cont Eq m1 m2).
Qed.

Lemma SFeqb_sym f g : SFeqb g f = SFeqb f g.
Proof.
  unfold SFeqb. rewrite SFcompare_antisym.
  by destruct (SFcompare f g) as [[]|].
Qed.

Lemma py_eq_sym a b : py_eq b a = py_eq a b.
Proof.
  destruct a, b; simpl; try done;
    try apply Z.eqb_sym; try apply SFeqb_sym; try apply String.eqb_sym.
Qed.

Lemma diff_else_swap (a b : Tree) (path : string) :
  (if negb (py_eq b a) then [(path, b, a)] else [])
  = map swap_change (if negb (py_eq a b) then [(path, a, b)] else []).
Proof. rewrite py_eq_sym. by destruct (py_eq a b). Qed.

Lemma diff_zip_swap rec rec' path l1 l2 i :
  Forall (fun v1 => forall v2 p, rec' v2 v1 p ≡ₚ map swap_change (rec v1 v2 p)) l1 ->
  diff_zip rec' path l2 l1 i ≡ₚ map swap_change (diff_zip rec path l1 l2 i).
Proof.
  intros HF. revert l2 i. induction HF as [|v1 l1 Hv _ IH]; intros [|v2 l2] i; simpl;
    try done.
  rewrite map_app. by apply Permutation_app.
Qed.

Lemma diff_range_swap d lo hi path :
  map swap_change (diff_range d lo hi (fun i v => (index_path path i, TNull, v)))
  = diff_range d lo hi (fun i v => (index_path path i, v, TNull)).
Proof.
  unfold diff_range. induction (seq lo (hi - lo)) as [|i l IH]; simpl; [done|].
  rewrite map_app, IH. by destruct (d !! i).
Qed.

Lemma diff_range_swap' d lo hi path :
  map swap_change (diff_range d lo hi (fun i v => (index_path path i, v, TNull)))
  = diff_range d lo hi (fun i v => (index_path path i, TNull, v)).
Proof.
  unfold diff_range. induction (seq lo (hi - lo)) as [|i l IH]; simpl; [done|].
  rewrite map_app, IH. by destruct (d !! i).
Qed.

Lemma map_flat_map {A B C} (f : B -> C) (g : A -> list B) (l : list A) :
  map f (flat_map g l) = flat_map (fun x => map f (g x)) l.
Proof. induction l as [|x l IH]; simpl; [done|]. by rewrite map_app, IH. Qed.

Lemma flat_map_perm_pointwise {A B} (f g : A -> list B) (l : list A) :
  (forall x, x ∈ l -> f x ≡ₚ g x) -> flat_map f l ≡ₚ flat_map g l.
Proof.
  induction l as [|x l IH]; intros H; simpl; [done|].
  apply Permutation_app.
  - apply H, list_elem_of_here.
  - apply IH. intros y Hy. apply H. by apply list_elem_of_further.
Qed.

(** The two directions may iterate over the key sets in different
    orders. *)
Lemma diff_swap set_iter set_iter' d1 :
  (forall S : gset string, set_iter S ≡ₚ elements S) ->
  (forall S : gset string, set_iter' S ≡ₚ elements S) ->
  forall d2 path,
    diff_dict set_iter' d2 d1 path ≡ₚ map swap_change (diff_dict set_iter d1 d2 path).
Proof.
  intros Hi Hi'.
  assert (Helse : forall a b path,
             kind_differs a b ->
             diff_dict set_iter' b a path
             = map swap_change (diff_dict set_iter a b path)).
  { intros a b path H. destruct a, b; try done; apply diff_else_swap. }
  induction d1 as [| | | | |l1 IH|m1 IH] using Tree_ind; intros d2 path;
    try (rewrite Helse; [done | by destruct d2]).
  - destruct d2 as [| | | | |l2|]; try (by rewrite Helse).
    change (diff_dict set_iter' (TList l2) (TList l1) path)
      with (diff_zip (diff_dict set_iter') path l2 l1 0
            ++ diff_range l1 (length l2) (length l1)
                 (fun i v => (index_path path i, TNull, v))
            ++ diff_range l2 (length l1) (length l2)
                 (fun i v => (index_path path i, v, TNull))).
    change (diff_dict set_iter (TList l1) (TList l2) path)
      with (diff_zip (diff_dict set_iter) path l1 l2 0
            ++ diff_range l2 (length l1) (length l2)
                 (fun i v => (index_path path i, TNull, v))
            ++ diff_range l1 (length l2) (length l1)
                 (fun i v => (index_path path i, v, TNull))).
    rewrite !map_app, diff_range_swap, diff_range_swap'.
    apply Permutation_app; [by apply diff_zip_swap|].
    apply Permutation_app_comm.
  - destruct d2 as [| | | | | |m2]; try (by rewrite Helse).
    rewrite !diff_dict_dict, map_flat_map.
    rewrite (union_comm_L (list_to_set (PyDict.keys m2)) (list_to_set (PyDict.keys m1))).
    etrans.
    { apply Permutation_flat_map. etrans; [apply Hi' | symmetry; apply Hi]. }
    apply flat_map_perm_pointwise. intros k _.
    destruct (PyDict.get k m1) as [v1|] eqn:E1, (PyDict.get k m2) as [v2|] eqn:E2;
      try done.
    rewrite Forall_forall in IH. apply get_elem_of in E1. apply (IH (k, v1) E1).
Qed.

(** X22. [diff_dict] read backwards: comparing the updated value with the
    original gives the changes of comparing the original with the updated,
    each with its old and its new value exchanged, up to the order in which
    they are listed. The two comparisons may iterate over the key sets in
    different orders; each is only required to visit every key of a set
    once. *)
Theorem X22_diff_backwards (set_iter set_iter' : gset string -> list string)
    (d1 d2 : Tree) (path : string) :
  (forall S : gset string, set_iter S ≡ₚ elements S) ->
  (forall S : gset string, set_iter' S ≡ₚ elements S) ->
  diff_dict set_iter' d2 d1 path ≡ₚ map swap_change (diff_dict set_iter d1 d2 path).
Proof. intros Hi Hi'. by apply diff_swap. Qed.

Lemma X22_diff_backwards_witness :
  diff_dict (fun S => reverse (elements S))
    (TDict [("name", TStr "dev_a"); ("port", TInt 80)])
    (TDict [("name", TStr "a"); ("org", TStr "x")]) ""
  ≡ₚ map swap_change
       (diff_dict elements
          (TDict [("name", TStr "a"); ("org", TStr "x")])
          (TDict [("name", TStr "dev_a"); ("port", TInt 80)]) "").
Proof.
  apply (X22_diff_backwards elements (fun S => reverse (elements S))
           (TDict [("name", TStr "a"); ("org", TStr "x")])
           (TDict [("name", TStr "dev_a"); ("port", TInt 80)]) "").
  - intros S. reflexivity.
  - intros S. apply reverse_Permutation.
Defined.

(** ** The hook of the dump, and the report of a file *)

(** X8. [represent_multiline_str] builds a string node that holds the
    data as it is; it asks for the literal style exactly when the data
    holds a newline, a double quote, a single quote, a backslash, a
    less-than or a greater-than sign, and for no style otherwise. *)
Theorem X8_hook_policy (data : string) :
  node_tag (represent_multiline_str data) = "tag:yaml.org,2002:str"
  /\ node_value (represent_multiline_str data) = data
  /\ node_style (represent_multiline_str data)
     = if bool_decide (Exists (fun c => c ∈ "010"%char :: special_chars)
                              (list_ascii_of_string data))
       then Some "|" else None.
Proof.
  destruct (represent_multiline_str_policy data) as (Hv & Hlit & Hnone).
  split; [unfold represent_multiline_str; by destruct (_ || _)|]. split; [done|].
  case_bool_decide as Hex.
  - apply Hlit. apply Exists_exists in Hex as (c & Hc & Hin).
    exists c. split; by apply list_elem_of_In.
  - apply Hnone. intros c Hc Hin. apply Hex, Exists_exists.
    exists c. split; by apply list_elem_of_In.
Qed.

Section Report.
Variable set_iter : gset string -> list string.
Variable fix_block_scalars : string -> string.
Variable safe_load : string -> Exception + Tree.
Variable safe_dump : (string -> ScalarNode) -> Tree -> string * option Exception.
Variable py_str : Tree -> string.

(** X21. The report of a file is truthful. When a file parses to a
    well-formed tree without a float that is not a number and its
    processing raises nothing, the output gains the line that names the
    file and then: the line [No changes detected.] alone if the rewrite
    returned the tree unchanged; otherwise the line [Changes made:] and one
    line for each change of the differ, of which there is at least one. *)
Theorem X21_report_truthful (filepath prefix : string) (keys : list string)
    (w w' : World) (raw : string) (t : Tree) :
  (forall (S : gset string) k, k ∈ S -> k ∈ set_iter S) ->
  files w !! filepath = Some raw ->
  safe_load (fix_block_scalars raw) = inr t ->
  wf t ->
  has_nan t = false ->
  process_yaml_file set_iter fix_block_scalars safe_load safe_dump py_str
    filepath prefix keys w = (w', None) ->
  let updated := fst (recursive_prefix_lookup t prefix keys (lookup_table w)) in
  (updated = t ->
   stdout w' = stdout w ++ ["✅ Processed: " +:+ basename filepath;
                            "No changes detected."])
  /\ (updated <> t ->
      diff_dict set_iter t updated "" <> []
      /\ stdout w' = stdout w
                     ++ ["✅ Processed: " +:+ basename filepath; "Changes made:"]
                     ++ map (report_line py_str) (diff_dict set_iter t updated "")).
Proof.
  intros Hcover Hraw Hload Hwf Hnan Hproc. simpl.
  unfold process_yaml_file in Hproc. rewrite Hraw, Hload in Hproc.
  rewrite (rpl_split t prefix keys (lookup_table w)) in * by done. simpl.
  destruct (safe_dump _ (prefixed prefix keys t)) as [text [e|]]; [done|].
  destruct (diff_dict set_iter t (prefixed prefix keys t) "") as [|c l] eqn:Hd.
  - injection Hproc as <-. split.
    + intros _. simpl. by rewrite <- app_assoc.
    + intros Hne. exfalso. apply Hne. by eapply diff_prefixed_nil.
  - injection Hproc as <-. split.
    + intros Heq. rewrite Heq in Hd.
      by rewrite (proj2 (diff_self set_iter t Hcover Hwf "") Hnan) in Hd.
    + intros _. split; [done|]. rewrite print_all_stdout. simpl.
      by rewrite <- !app_assoc.
Qed.

End Report.

Lemma X21_report_truthful_witness :
  stdout (fst (process_yaml_file elements (fun raw => raw)
                 (fun _ => inr (TDict [("name", TStr "dev_web")]))
                 (fun _ _ => ("name: dev_web", None)) (fun _ => "")
                 "conf/orgs.yaml" "dev_" ["name"]
                 {| files := {["conf/orgs.yaml" := "name: dev_web"]};
                    yaml := yaml_initial; lookup_table := []; stdout := ["start"] |}))
  = ["start"] ++ ["✅ Processed: " +:+ basename "conf/orgs.yaml"; "No changes detected."].
Proof.
  refine (proj1 (X21_report_truthful elements (fun raw => raw)
           (fun _ => inr (TDict [("name", TStr "dev_web")]))
           (fun _ _ => ("name: dev_web", None)) (fun _ => "")
           "conf/orgs.yaml" "dev_" ["name"]
           {| files := {["conf/orgs.yaml" := "name: dev_web"]};
              yaml := yaml_initial; lookup_table := []; stdout := ["start"] |}
           (fst (process_yaml_file elements (fun raw => raw)
                   (fun _ => inr (TDict [("name", TStr "dev_web")]))
                   (fun _ _ => ("name: dev_web", None)) (fun _ => "")
                   "conf/orgs.yaml" "dev_" ["name"]
                   {| files := {["conf/orgs.yaml" := "name: dev_web"]};
                      yaml := yaml_initial; lookup_table := []; stdout := ["start"] |}))
           "name: dev_web" (TDict [("name", TStr "dev_web")]) _ _ _ _ _ _) _).
  - apply elements_cover.
  - by vm_compute.
  - reflexivity.
  - apply wfb_wf. reflexivity.
  - reflexivity.
  - by vm_compute.
  - by vm_compute.
Defined.
